(** * Parking-tracking.cpp: a shallow embedding and its verification

    The program is a single-threaded menu loop over one [ParkingSystem]
    object.  Every class of the source becomes a module holding a record
    (the data members) and functions (the member functions); the names are
    the source's.

    Modelling conventions.
    - [int] is [Z].  The ticket counter is a 32-bit [int] that only ever
      grows: [++ticketCounter] is the successor wrapped around to the range
      of [int] ([int_wrap]), which is what the increment does past [INT_MAX]
      on a two's-complement machine (the language leaves it undefined).
      The other [int]s stay small: [occupiedSlots] is at most the number of
      slots, and the slot and floor numbers are positions in a vector.
    - [double] is binary64.  A double is the rational it denotes ([Q]).
      [getParkingDuration] converts the tick count to a double and divides
      twice; each of the three operations rounds to the nearest double, ties
      to even ([B64.round]).  The other operations on doubles (the products
      of the rate table, hours times rate, the minimum, the sum of the
      revenue) are on whole numbers far below 2^53 and on 0.5 and 0.8 times
      20 or 10, and are exact.
    - [std::chrono::system_clock::time_point] is the integer count of clock
      ticks since the epoch; [ticks_per_second] is the tick rate.  The
      source holds the count in 64 bits; the readings and the difference of
      two readings are taken to fit.  Each operation receives the reading of
      the clock as an argument [now]; the two readings during a park (for
      [occupiedSince], which nothing reads, and for [entryTime]) are the
      same [now].
    - [std::unique_ptr<Vehicle>] is [option Vehicle.t]; [None] is the null
      pointer left behind by [std::move].
    - Undefined behaviour (dereferencing a null pointer, indexing the vector
      of floors out of range) is the [None] of the [option] monad.
    - [std::map<std::string, std::shared_ptr<Ticket>>] is a
      [gmap string Ticket.t]. *)

From Stdlib Require Import ZArith QArith Qround Qminmax Qpower Lia Lqa.
From Stdlib Require Import PrimFloat Uint63 FloatOps SpecFloat.
From stdpp Require Import gmap strings list fin_maps.

Open Scope Z_scope.

(** ** Constants and enumerations *)

Definition CAR_HOURLY_RATE : Q := 20.
Definition BIKE_HOURLY_RATE : Q := 10.
Definition DAILY_MAX : Q := 200.
Definition MIN_CHARGE_HOURS : Q := 1.

Inductive VehicleType := CAR | BIKE | HANDICAPPED | ELECTRIC.
Inductive SlotStatus := FREE | OCCUPIED | RESERVED | MAINTENANCE.

#[global] Instance VehicleType_eq_dec : EqDecision VehicleType.
Proof. solve_decision. Defined.
#[global] Instance SlotStatus_eq_dec : EqDecision SlotStatus.
Proof. solve_decision. Defined.

(** Clock readings. *)
Definition time_point := Z.
Definition ticks_per_second : Z := 1000000000.

(** [std::min(a, b)] is [(b < a) ? b : a]. *)
Definition std_min (a b : Q) : Q := if Qle_bool a b then a else b.

(** ** Machine arithmetic *)

(** A 32-bit [int]: the value of [z] wrapped around to the range from
    -2^31 to [INT_MAX]. *)
Definition INT_MAX : Z := 2147483647.

Definition int_wrap (z : Z) : Z := (z + 2147483648) mod 4294967296 - 2147483648.

(** binary64 arithmetic on the rationals the doubles denote.  Overflow and
    subnormal numbers are left out: the program's doubles lie between 1e-13
    and 1e19 in absolute value, or are 0. *)
Module B64.

(** The nearest integer, ties to the even one. *)
Definition rne (q : Q) : Z :=
  let f := Qfloor q in
  match (q - inject_Z f ?= 1 # 2)%Q with
  | Lt => f
  | Gt => f + 1
  | Eq => if Z.even f then f else f + 1
  end.

(** For positive [q], the exponent [e] with [2^e <= q < 2^(e+1)]. *)
Definition ilog2 (q : Q) : Z :=
  let t := Z.log2 (Qnum q) - Z.log2 (Zpos (Qden q)) in
  if Qle_bool (2 ^ t) q then t else t - 1.

(** A positive rational rounded to 53 significant bits. *)
Definition round_pos (q : Q) : Q :=
  let e := ilog2 q - 52 in
  (inject_Z (rne (q / 2 ^ e)) * 2 ^ e)%Q.

(** The double nearest to [q], in lowest terms. *)
Definition round (q : Q) : Q :=
  Qred match Qnum q with
       | 0 => 0
       | Zpos _ => round_pos q
       | Zneg _ => - round_pos (- q)
       end.

(** [static_cast<double>] of an integer, and the division of doubles by a
    divisor other than 0 (the program divides by 1e9 and by 3600.0). *)
Definition of_int (z : Z) : Q := round (inject_Z z).
Definition div (x y : Q) : Q := round (x / y).

(** The rational a finite binary64 number of the kernel denotes. *)
Definition to_Q (f : PrimFloat.float) : option Q :=
  match Prim2SF f with
  | S754_zero _ => Some 0%Q
  | S754_finite s m e =>
      Some (Qred (inject_Z (if s then Zneg m else Zpos m) * 2 ^ e))
  | _ => None
  end.

End B64.

(** ** Vehicle classes *)

Module Vehicle.

(** The dynamic class of the object behind a [Vehicle*]. *)
Inductive cls := CarCls | BikeCls | ElectricCarCls | HandicappedVehicleCls.

Record t := mk { registration : string; type : VehicleType; class : cls }.

Definition Car (reg : string) : t := mk reg CAR CarCls.
Definition Bike (reg : string) : t := mk reg BIKE BikeCls.
Definition ElectricCar (reg : string) : t := mk reg ELECTRIC ElectricCarCls.
Definition HandicappedVehicle (reg : string) (baseType : VehicleType) : t :=
  mk reg baseType HandicappedVehicleCls.

Definition getRegistration (v : t) : string := registration v.
Definition getType (v : t) : VehicleType := type v.

(** The virtual [getHourlyRate], dispatched on the dynamic class. *)
Definition getHourlyRate (v : t) : Q :=
  match class v with
  | CarCls => CAR_HOURLY_RATE
  | BikeCls => BIKE_HOURLY_RATE
  | ElectricCarCls => CAR_HOURLY_RATE * 0.8
  | HandicappedVehicleCls =>
      if bool_decide (type v = CAR) then CAR_HOURLY_RATE * 0.5
      else BIKE_HOURLY_RATE * 0.5
  end%Q.

Definition getTypeString (v : t) : string :=
  match class v with
  | CarCls => "Car"
  | BikeCls => "Bike"
  | ElectricCarCls => "Electric Car"
  | HandicappedVehicleCls =>
      if bool_decide (type v = CAR) then "Handicapped Car" else "Handicapped Bike"
  end.

End Vehicle.

(** ** Parking slot *)

Module ParkingSlot.

Record t := mk {
  id : Z;
  floor : Z;
  status : SlotStatus;
  allowedType : VehicleType;
  currentVehicle : option Vehicle.t;
  occupiedSince : time_point
}.

(** The constructor; [occupiedSince] is default-constructed (the epoch). *)
Definition new (slotId flr : Z) (ty : VehicleType) : t :=
  mk slotId flr FREE ty None 0.

Definition getId (s : t) : Z := id s.
Definition getFloor (s : t) : Z := floor s.
Definition getStatus (s : t) : SlotStatus := status s.
Definition getCurrentVehicle (s : t) : option Vehicle.t := currentVehicle s.

Definition isCompatible (vehicleType : VehicleType) (s : t) : bool :=
  bool_decide (status s = FREE) && bool_decide (allowedType s = vehicleType).

(** The slot as [parkVehicle] leaves it on success. *)
Definition occupy (now : time_point) (v : Vehicle.t) (s : t) : t :=
  mk (id s) (floor s) OCCUPIED (allowedType s) (Some v) now.

(** [vehicle->getType()] on a null [vehicle] is undefined. *)
Definition parkVehicle (now : time_point) (vehicle : option Vehicle.t) (s : t)
    : option (bool * t) :=
  v ← vehicle;
  if negb (isCompatible (Vehicle.getType v) s) then Some (false, s)
  else Some (true, occupy now v s).

Definition vacate (s : t) : option Vehicle.t * t :=
  (currentVehicle s,
   mk (id s) (floor s) FREE (allowedType s) None (occupiedSince s)).

End ParkingSlot.

(** ** Ticket *)

Module Ticket.

Record t := mk {
  id : Z;
  floor : Z;
  slotId : Z;
  vehicleReg : string;
  vehicleType : VehicleType;
  entryTime : time_point;
  exitTime : time_point;
  isActive : bool
}.

(** The constructor reads the clock for [entryTime]; [exitTime] is
    default-constructed. *)
Definition new (now : time_point) (ticketId : Z) (reg : string)
    (type : VehicleType) (flr slot : Z) : t :=
  mk ticketId flr slot reg type now 0 true.

Definition getId (tk : t) : Z := id tk.
Definition getVehicleReg (tk : t) : string := vehicleReg tk.
Definition getVehicleType (tk : t) : VehicleType := vehicleType tk.
Definition getFloor (tk : t) : Z := floor tk.
Definition getSlotId (tk : t) : Z := slotId tk.
Definition getIsActive (tk : t) : bool := isActive tk.

Definition exit (now : time_point) (tk : t) : t :=
  mk (id tk) (floor tk) (slotId tk) (vehicleReg tk) (vehicleType tk)
     (entryTime tk) now false.

(** [duration<double>(endTime - entryTime).count() / 3600.0]: the count of
    ticks is converted to a double and divided by the number of ticks in a
    second, which gives the seconds as a double; these are divided by
    3600.0. *)
Definition getParkingDuration (now : time_point) (tk : t) : Q :=
  let endTime := if isActive tk then now else exitTime tk in
  let seconds :=
    B64.div (B64.of_int (endTime - entryTime tk)) (inject_Z ticks_per_second) in
  B64.div seconds 3600.

End Ticket.

(** ** Parking floor *)

Module ParkingFloor.

Record t := mk {
  floorNumber : Z;
  slots : list ParkingSlot.t;
  occupiedSlots : Z
}.

(** One constructor loop: [n] times [slots.emplace_back(id++, floorNum, ty)];
    returns the slots appended and the value of [id] after the loop. *)
Fixpoint emplace_slots (n : nat) (ty : VehicleType) (floorNum id : Z)
    : list ParkingSlot.t * Z :=
  match n with
  | O => ([], id)
  | S k =>
      let '(rest, id') := emplace_slots k ty floorNum (id + 1) in
      (ParkingSlot.new id floorNum ty :: rest, id')
  end.

Definition new (floorNum carSlots bikeSlots : Z) : t :=
  let '(cars, id) := emplace_slots (Z.to_nat carSlots) CAR floorNum 1 in
  let '(bikes, _) := emplace_slots (Z.to_nat bikeSlots) BIKE floorNum id in
  mk floorNum (cars ++ bikes) 0.

(** The pointer returned is the position in the vector together with the
    slot it points to; [None] is [nullptr]. *)
Definition findAvailableSlot (type : VehicleType) (f : t)
    : option (nat * ParkingSlot.t) :=
  list_find (λ s, ParkingSlot.isCompatible type s = true) (slots f).

(** The loop of [parkVehicle].  Each call of [slot.parkVehicle] moves from
    [vehicle], which is null afterwards whatever the call returns. *)
Fixpoint parkVehicle_slots (now : time_point) (slotId : Z)
    (vehicle : option Vehicle.t) (ss : list ParkingSlot.t)
    : option (bool * list ParkingSlot.t) :=
  match ss with
  | [] => Some (false, [])
  | s :: rest =>
      if bool_decide (ParkingSlot.getId s = slotId) then
        '(ok, s') ← ParkingSlot.parkVehicle now vehicle s;
        if (ok : bool) then Some (true, s' :: rest)
        else '(r, rest') ← parkVehicle_slots now slotId None rest;
             Some (r, s' :: rest')
      else
        '(r, rest') ← parkVehicle_slots now slotId vehicle rest;
        Some (r, s :: rest')
  end.

Definition parkVehicle (now : time_point) (slotId : Z)
    (vehicle : option Vehicle.t) (f : t) : option (bool * t) :=
  '(ok, ss) ← parkVehicle_slots now slotId vehicle (slots f);
  Some (ok, mk (floorNumber f) ss
               (if (ok : bool) then occupiedSlots f + 1 else occupiedSlots f)).

(** The loop of [vacateSlot]: [None] when no slot has the id and is
    occupied, otherwise what [slot.vacate()] returned and the new slots. *)
Fixpoint vacateSlot_slots (slotId : Z) (ss : list ParkingSlot.t)
    : option (option Vehicle.t * list ParkingSlot.t) :=
  match ss with
  | [] => None
  | s :: rest =>
      if bool_decide (ParkingSlot.getId s = slotId)
         && bool_decide (ParkingSlot.getStatus s = OCCUPIED)
      then let '(v, s') := ParkingSlot.vacate s in Some (v, s' :: rest)
      else '(v, rest') ← vacateSlot_slots slotId rest; Some (v, s :: rest')
  end.

Definition vacateSlot (slotId : Z) (f : t) : option Vehicle.t * t :=
  match vacateSlot_slots slotId (slots f) with
  | Some (v, ss) => (v, mk (floorNumber f) ss (occupiedSlots f - 1))
  | None => (None, f)
  end.

Definition getOccupiedSlots (f : t) : Z := occupiedSlots f.
Definition getTotalSlots (f : t) : Z := Z.of_nat (length (slots f)).

End ParkingFloor.

(** ** Parking system *)

(** What an operation prints: the result line, with the values streamed
    into it. *)
Inductive Output :=
  | VehicleParked (ticketId : Z)
  | NoSlotsAvailable
  | ParkingCharge (charge : Q)
  | VehicleNotFound
  | Status (total occ available : Z).

(** The string literal that starts each result line. *)
Definition printed_text (o : Output) : string :=
  match o with
  | VehicleParked _ => "Vehicle parked. Ticket ID: "
  | NoSlotsAvailable => "No slots available."
  | ParkingCharge _ => "Parking charge: $"
  | VehicleNotFound => "Vehicle not found."
  | Status _ _ _ => "Total Slots: "
  end.

Module ParkingSystem.

Record t := mk {
  floors : list ParkingFloor.t;
  activeTickets : gmap string Ticket.t;
  ticketCounter : Z;
  totalRevenue : Q
}.

(** [for (int i = 1; i <= numFloors; ++i) floors.emplace_back(i, ...)]. *)
Definition new (numFloors carsPerFloor bikesPerFloor : Z) : t :=
  mk ((λ i, ParkingFloor.new i carsPerFloor bikesPerFloor) <$> seqZ 1 numFloors)
     ∅ 1000 0.

(** The vehicle built from the menu choice. *)
Definition make_vehicle (typeChoice : Z) (reg : string) : Vehicle.t :=
  if bool_decide (typeChoice = 1) then Vehicle.Car reg else Vehicle.Bike reg.

(** The loop over the floors.  [Some None]: the loop ran to its end;
    [Some (Some (fs, slot))]: a floor took the vehicle, [fs] are the floors
    and [slot] is what the pointer [slot] points to afterwards. *)
Fixpoint parkVehicle_floors (now : time_point) (vehicle : option Vehicle.t)
    (fs : list ParkingFloor.t)
    : option (option (list ParkingFloor.t * ParkingSlot.t)) :=
  match fs with
  | [] => Some None
  | f :: rest =>
      v ← vehicle;
      match ParkingFloor.findAvailableSlot (Vehicle.getType v) f with
      | Some (i, slot) =>
          '(ok, f') ← ParkingFloor.parkVehicle now (ParkingSlot.getId slot) vehicle f;
          if (ok : bool) then
            slot' ← ParkingFloor.slots f' !! i;
            Some (Some (f' :: rest, slot'))
          else
            r ← parkVehicle_floors now None rest;
            Some ((λ '(rest', sl), (f' :: rest', sl)) <$> r)
      | None =>
          r ← parkVehicle_floors now vehicle rest;
          Some ((λ '(rest', sl), (f :: rest', sl)) <$> r)
      end
  end.

Definition parkVehicle (typeChoice : Z) (reg : string) (now : time_point)
    (s : t) : option (t * Output) :=
  let vehicle := make_vehicle typeChoice reg in
  r ← parkVehicle_floors now (Some vehicle) (floors s);
  match r with
  | Some (fs, slot) =>
      cur ← ParkingSlot.getCurrentVehicle slot;
      let counter := int_wrap (ticketCounter s + 1) in
      let ticket :=
        Ticket.new now counter reg (Vehicle.getType cur)
                   (ParkingSlot.getFloor slot) (ParkingSlot.getId slot) in
      Some (mk fs (<[reg := ticket]> (activeTickets s)) counter (totalRevenue s),
            VehicleParked (Ticket.getId ticket))
  | None => Some (s, NoSlotsAvailable)
  end.

(** [floors[i].vacateSlot(slotId)]; an index outside the vector is
    undefined. *)
Definition vacate_at (i slotId : Z) (fs : list ParkingFloor.t)
    : option (list ParkingFloor.t) :=
  if bool_decide (0 ≤ i) then
    f ← fs !! Z.to_nat i;
    Some (<[Z.to_nat i := (ParkingFloor.vacateSlot slotId f).2]> fs)
  else None.

(** The charge computed for a ticket that leaves at [now]. *)
Definition charge_of (now : time_point) (ticket0 : Ticket.t) : Q :=
  let ticket := Ticket.exit now ticket0 in
  let hours := inject_Z (Qceiling (Ticket.getParkingDuration now ticket)) in
  let rate :=
    if bool_decide (Ticket.getVehicleType ticket = CAR)
    then CAR_HOURLY_RATE else BIKE_HOURLY_RATE in
  std_min (hours * rate)%Q DAILY_MAX.

Definition unparkVehicle (reg : string) (now : time_point) (s : t)
    : option (t * Output) :=
  match activeTickets s !! reg with
  | None => Some (s, VehicleNotFound)
  | Some ticket =>
      let charge := charge_of now ticket in
      fs ← vacate_at (Ticket.getFloor ticket - 1) (Ticket.getSlotId ticket)
                     (floors s);
      Some (mk fs (delete reg (activeTickets s)) (ticketCounter s)
               (totalRevenue s + charge)%Q,
            ParkingCharge charge)
  end.

Definition displayStatus (s : t) : Output :=
  let '(total, occ) :=
    foldl (λ '(total, occ) f,
             (total + ParkingFloor.getTotalSlots f,
              occ + ParkingFloor.getOccupiedSlots f))
          (0, 0) (floors s) in
  Status total occ (total - occ).

End ParkingSystem.

(** ** The menu loop *)

(** One iteration of [main]'s loop: the menu choice with what the operation
    reads from the input and from the clock.  Any other choice leaves the
    loop. *)
Inductive Command :=
  | Park (typeChoice : Z) (reg : string) (now : time_point)
  | Unpark (reg : string) (now : time_point)
  | ViewStatus.

Definition step (s : ParkingSystem.t) (c : Command)
    : option (ParkingSystem.t * Output) :=
  match c with
  | Park typeChoice reg now => ParkingSystem.parkVehicle typeChoice reg now s
  | Unpark reg now => ParkingSystem.unparkVehicle reg now s
  | ViewStatus => Some (s, ParkingSystem.displayStatus s)
  end.

(** A run of the loop: the final state and the lines printed, in order. *)
Fixpoint run (s : ParkingSystem.t) (cs : list Command)
    : option (ParkingSystem.t * list Output) :=
  match cs with
  | [] => Some (s, [])
  | c :: cs' =>
      '(s1, o) ← step s c;
      '(s2, os) ← run s1 cs';
      Some (s2, o :: os)
  end.

(** ** Definitions used to state the properties *)

(** The five categories of the specification and the object the source
    would build for each of them. *)
Inductive VehicleCategory :=
  | CatCar | CatBike | CatElectricCar | CatHandicappedCar | CatHandicappedBike.

Definition vehicle_of_category (c : VehicleCategory) (reg : string) : Vehicle.t :=
  match c with
  | CatCar => Vehicle.Car reg
  | CatBike => Vehicle.Bike reg
  | CatElectricCar => Vehicle.ElectricCar reg
  | CatHandicappedCar => Vehicle.HandicappedVehicle reg CAR
  | CatHandicappedBike => Vehicle.HandicappedVehicle reg BIKE
  end.

(** The rate table as the specification words it. *)
Definition spec_rate_table (c : VehicleCategory) : Q :=
  match c with
  | CatCar => 20
  | CatBike => 10
  | CatElectricCar => 16
  | CatHandicappedCar => 10
  | CatHandicappedBike => 5
  end.

(** Elapsed time between two clock readings, in hours, rounded up: the
    exact quotient, without the rounding of doubles. *)
Definition ceil_hours (entry exit : time_point) : Z :=
  Qceiling (inject_Z (exit - entry) / inject_Z (ticks_per_second * 3600)).

(** The hours [getParkingDuration] computes for a count of ticks. *)
Definition duration_of_ticks (ticks : Z) : Q :=
  B64.div (B64.div (B64.of_int ticks) (inject_Z ticks_per_second)) 3600.

(** The same computation on the binary64 numbers of the kernel, for a count
    of ticks below 2^63 in absolute value. *)
Definition duration_of_ticks_b64 (ticks : Z) : PrimFloat.float :=
  let count :=
    if bool_decide (0 ≤ ticks) then PrimFloat.of_uint63 (Uint63.of_Z ticks)
    else PrimFloat.opp (PrimFloat.of_uint63 (Uint63.of_Z (- ticks))) in
  PrimFloat.div (PrimFloat.div count 1000000000%float) 3600%float.

(** The slot at position [j] of the floor at position [k]. *)
Definition slot_at (fs : list ParkingFloor.t) (k j : nat) : option ParkingSlot.t :=
  f ← fs !! k; ParkingFloor.slots f !! j.

(** [sl] is a slot with id [slotId] on a floor numbered [flr]. *)
Definition slot_of (s : ParkingSystem.t) (flr slotId : Z) (sl : ParkingSlot.t) : Prop :=
  ∃ f, f ∈ ParkingSystem.floors s ∧ ParkingFloor.floorNumber f = flr
       ∧ sl ∈ ParkingFloor.slots f ∧ ParkingSlot.id sl = slotId.

(** Some floor has a free slot whose allowed type is [type]. *)
Definition has_free_slot (type : VehicleType) (s : ParkingSystem.t) : bool :=
  existsb (λ f, existsb (ParkingSlot.isCompatible type) (ParkingFloor.slots f))
          (ParkingSystem.floors s).

(** The number of slots whose status is [OCCUPIED]. *)
Definition occupied_count (ss : list ParkingSlot.t) : Z :=
  Z.of_nat (length (filter (λ sl, ParkingSlot.status sl = OCCUPIED) ss)).

Definition sumZ (l : list Z) : Z := foldr Z.add 0 l.

Definition total_slots (s : ParkingSystem.t) : Z :=
  sumZ ((λ f, Z.of_nat (length (ParkingFloor.slots f))) <$> ParkingSystem.floors s).

Definition total_occupied (s : ParkingSystem.t) : Z :=
  sumZ ((λ f, occupied_count (ParkingFloor.slots f)) <$> ParkingSystem.floors s).

(** The ticket ids and the charges among the lines printed. *)
Definition issued_ids (os : list Output) : list Z :=
  omap (λ o, match o with VehicleParked i => Some i | _ => None end) os.






(** A slot is either free and empty, or occupied by a car or a bike of the
    type the slot allows. *)
Definition slot_consistent (sl : ParkingSlot.t) : Prop :=
  match ParkingSlot.currentVehicle sl with
  | None => ParkingSlot.status sl = FREE
  | Some v =>
      ParkingSlot.status sl = OCCUPIED
      ∧ Vehicle.type v = ParkingSlot.allowedType sl
      ∧ (v = Vehicle.Car (Vehicle.registration v)
         ∨ v = Vehicle.Bike (Vehicle.registration v))
  end.

(** The invariant of the facility: floors and slots are numbered by their
    position, every counter is exact, and every active ticket points to an
    occupied slot of its own. *)
Record invariant (s : ParkingSystem.t) : Prop := {
  inv_floor : ∀ k f, ParkingSystem.floors s !! k = Some f →
    ParkingFloor.floorNumber f = Z.of_nat k + 1
    ∧ ParkingFloor.occupiedSlots f = occupied_count (ParkingFloor.slots f);
  inv_slot : ∀ k j sl, slot_at (ParkingSystem.floors s) k j = Some sl →
    ParkingSlot.id sl = Z.of_nat j + 1
    ∧ ParkingSlot.floor sl = Z.of_nat k + 1
    ∧ slot_consistent sl;
  inv_ticket : ∀ reg tk, ParkingSystem.activeTickets s !! reg = Some tk →
    ∃ k j sl v,
      Ticket.floor tk = Z.of_nat k + 1 ∧ Ticket.slotId tk = Z.of_nat j + 1
      ∧ slot_at (ParkingSystem.floors s) k j = Some sl
      ∧ ParkingSlot.currentVehicle sl = Some v
      ∧ Ticket.vehicleType tk = Vehicle.type v
      ∧ Vehicle.registration v = reg
      ∧ Ticket.vehicleReg tk = reg
      ∧ Ticket.isActive tk = true;
  inv_inj : ∀ r1 r2 t1 t2,
    ParkingSystem.activeTickets s !! r1 = Some t1 →
    ParkingSystem.activeTickets s !! r2 = Some t2 →
    Ticket.floor t1 = Ticket.floor t2 → Ticket.slotId t1 = Ticket.slotId t2 →
    r1 = r2
}.

(** The states the program can be in: those a run of the menu loop reaches
    from a freshly constructed facility. *)
Definition reachable (s : ParkingSystem.t) : Prop :=
  ∃ numFloors carsPerFloor bikesPerFloor cs os,
    run (ParkingSystem.new numFloors carsPerFloor bikesPerFloor) cs = Some (s, os).

(** What a slot adds to the count of occupied slots. *)
Definition occ_bit (sl : ParkingSlot.t) : Z :=
  if bool_decide (ParkingSlot.status sl = OCCUPIED) then 1 else 0.

(** The floor after it has taken the vehicle in its slot at position [i]. *)
Definition floor_park now v i (f : ParkingFloor.t) (sl : ParkingSlot.t) : ParkingFloor.t :=
  ParkingFloor.mk (ParkingFloor.floorNumber f)
    (<[i := ParkingSlot.occupy now v sl]> (ParkingFloor.slots f))
    (ParkingFloor.occupiedSlots f + 1).

(** The facility after a vehicle has been parked at position [(k, i)]. *)
Definition park_state typeChoice reg now k i (f : ParkingFloor.t) (sl : ParkingSlot.t)
    (s : ParkingSystem.t) : ParkingSystem.t :=
  let v := ParkingSystem.make_vehicle typeChoice reg in
  ParkingSystem.mk
    (<[k := floor_park now v i f sl]> (ParkingSystem.floors s))
    (<[reg := Ticket.new now (int_wrap (ParkingSystem.ticketCounter s + 1)) reg
                (Vehicle.type v) (ParkingSlot.floor sl) (ParkingSlot.id sl)]>
       (ParkingSystem.activeTickets s))
    (int_wrap (ParkingSystem.ticketCounter s + 1))
    (ParkingSystem.totalRevenue s).

(** The floor after its slot at position [j] has been vacated, and the
    facility after the ticket of [reg] has been billed. *)
Definition floor_vacate j (f : ParkingFloor.t) (sl : ParkingSlot.t) : ParkingFloor.t :=
  ParkingFloor.mk (ParkingFloor.floorNumber f)
    (<[j := (ParkingSlot.vacate sl).2]> (ParkingFloor.slots f))
    (ParkingFloor.occupiedSlots f - 1).

Definition unpark_state reg now k j (f : ParkingFloor.t) (sl : ParkingSlot.t)
    (tk : Ticket.t) (s : ParkingSystem.t) : ParkingSystem.t :=
  ParkingSystem.mk
    (<[k := floor_vacate j f sl]> (ParkingSystem.floors s))
    (delete reg (ParkingSystem.activeTickets s))
    (ParkingSystem.ticketCounter s)
    (ParkingSystem.totalRevenue s + ParkingSystem.charge_of now tk)%Q.

(** The facility that [main] constructs. *)
Definition main_facility : ParkingSystem.t := ParkingSystem.new 3 10 5.

(** The final state and the output of a run; the facility itself and no
    output when the run is undefined. *)
Definition final_state (s : ParkingSystem.t) (cs : list Command) : ParkingSystem.t :=
  match run s cs with Some (s', _) => s' | None => s end.

Definition output_of (s : ParkingSystem.t) (cs : list Command) : list Output :=
  match run s cs with Some (_, os) => os | None => [] end.

(** The rate constants and the two factors of [getHourlyRate] as binary64
    values (0.8 is the double nearest to it). *)
Definition CAR_HOURLY_RATE_b64 : PrimFloat.float := 20%float.
Definition BIKE_HOURLY_RATE_b64 : PrimFloat.float := 10%float.
Definition factor_08_b64 : PrimFloat.float := 0x1.999999999999ap-1%float.
Definition factor_05_b64 : PrimFloat.float := 0.5%float.

(** Concrete states for the examples: the facility of [main] after a car
    and a bike have been parked, the ticket of the car, two unparks, and a
    facility of one car slot that is full. *)
Definition demo_parked : ParkingSystem.t :=
  final_state main_facility [Park 1 "KA01" 0; Park 2 "KA02" 10].

Definition demo_ticket : Ticket.t := Ticket.new 0 1001 "KA01" CAR 1 1.


Definition demo_full : ParkingSystem.t :=
  final_state (ParkingSystem.new 1 1 0) [Park 1 "KA01" 0].



(** [n] times: a car is parked and unparked again. *)
Fixpoint park_unpark_cycles (n : nat) : list Command :=
  match n with
  | O => []
  | S k => Park 1 "KA01" 0 :: Unpark "KA01" 0 :: park_unpark_cycles k
  end.

(** ** Further definitions *)

(** What identifies a slot and never changes: its id, its floor and the
    type it allows; the layout of a floor and of the facility. *)
Definition slot_key (sl : ParkingSlot.t) : Z * Z * VehicleType :=
  (ParkingSlot.id sl, ParkingSlot.floor sl, ParkingSlot.allowedType sl).

Definition floor_layout (f : ParkingFloor.t) : Z * list (Z * Z * VehicleType) :=
  (ParkingFloor.floorNumber f, slot_key <$> ParkingFloor.slots f).

Definition layout (s : ParkingSystem.t) : list (Z * list (Z * Z * VehicleType)) :=
  floor_layout <$> ParkingSystem.floors s.

(** The number of slots of a facility built with these arguments. *)
Definition capacity (numFloors carsPerFloor bikesPerFloor : Z) : Z :=
  Z.max 0 numFloors * (Z.max 0 carsPerFloor + Z.max 0 bikesPerFloor).

(** A status line reports [total] slots, between 0 and [total] of them
    occupied, and the rest available. *)
Definition status_line_ok (total : Z) (o : Output) : Prop :=
  match o with
  | Status t occ available => t = total ∧ 0 ≤ occ ≤ total ∧ available = total - occ
  | _ => True
  end.

(** The ticket ids in use: every active ticket has an id above 1000 and up
    to the counter, and no two registrations share an id. *)
Definition ticket_ids_ok (s : ParkingSystem.t) : Prop :=
  1000 ≤ ParkingSystem.ticketCounter s
  ∧ (∀ reg tk, ParkingSystem.activeTickets s !! reg = Some tk →
     1000 < Ticket.id tk ≤ ParkingSystem.ticketCounter s)
  ∧ (∀ r1 r2 t1 t2,
       ParkingSystem.activeTickets s !! r1 = Some t1 →
       ParkingSystem.activeTickets s !! r2 = Some t2 →
       Ticket.id t1 = Ticket.id t2 → r1 = r2).

(** A slot and a floor without the time stamp [occupiedSince], which
    nothing reads. *)
Definition slot_contents (sl : ParkingSlot.t)
    : Z * Z * SlotStatus * VehicleType * option Vehicle.t :=
  (ParkingSlot.id sl, ParkingSlot.floor sl, ParkingSlot.status sl,
   ParkingSlot.allowedType sl, ParkingSlot.currentVehicle sl).

Definition floor_contents (f : ParkingFloor.t)
    : Z * list (Z * Z * SlotStatus * VehicleType * option Vehicle.t) * Z :=
  (ParkingFloor.floorNumber f, slot_contents <$> ParkingFloor.slots f,
   ParkingFloor.occupiedSlots f).

(** The number of active tickets, and the number of occupied slots that no
    active ticket accounts for. *)
Definition tickets_count (s : ParkingSystem.t) : Z :=
  Z.of_nat (size (ParkingSystem.activeTickets s)).

Definition unticketed (s : ParkingSystem.t) : Z :=
  total_occupied s - tickets_count s.

(** No active ticket names the slot [slotId] of floor [flr]. *)
Definition no_ticket_names (s : ParkingSystem.t) (flr slotId : Z) : Prop :=
  ∀ reg tk, ParkingSystem.activeTickets s !! reg = Some tk →
    ¬ (Ticket.floor tk = flr ∧ Ticket.slotId tk = slotId).

(** The command is a park that succeeds under a registration that already
    has an active ticket. *)
Definition is_repark (s : ParkingSystem.t) (c : Command) (o : Output) : bool :=
  match c, o with
  | Park _ reg _, VehicleParked _ =>
      bool_decide (is_Some (ParkingSystem.activeTickets s !! reg))
  | _, _ => false
  end.

(** A slot after [vacate]. *)
Definition vacated (sl : ParkingSlot.t) : ParkingSlot.t :=
  ParkingSlot.mk (ParkingSlot.id sl) (ParkingSlot.floor sl) FREE
    (ParkingSlot.allowedType sl) None (ParkingSlot.occupiedSince sl).

(** The counter of a floor is the number of its occupied slots. *)
Definition counter_exact (f : ParkingFloor.t) : Prop :=
  ParkingFloor.occupiedSlots f = occupied_count (ParkingFloor.slots f).

(** A floor of a free car slot and a bike slot that holds a bike, and the
    floor after a car has been parked in the car slot. *)
Definition demo_floor : ParkingFloor.t :=
  ParkingFloor.mk 1
    [ParkingSlot.new 1 1 CAR;
     ParkingSlot.occupy 5 (Vehicle.Bike "KA07") (ParkingSlot.new 2 1 BIKE)] 1.

Definition demo_floor_parked : ParkingFloor.t :=
  ParkingFloor.mk 1
    [ParkingSlot.occupy 9 (Vehicle.Car "KA08") (ParkingSlot.new 1 1 CAR);
     ParkingSlot.occupy 5 (Vehicle.Bike "KA07") (ParkingSlot.new 2 1 BIKE)] 2.

(** ** The loop of [main] *)

(** One round of the loop of [main] in which every read succeeds: the menu
    choice read, and what the operation it selects reads from the input and
    from the clock (a round that selects the status report or leaves the
    loop reads the choice only, an unpark does not read a type). *)
Record Round := mkRound {
  choice : Z;
  round_typeChoice : Z;
  round_reg : string;
  round_now : time_point
}.

(** The loop on a facility, carried through the listed rounds: the state
    and the lines printed when the last listed round is done or a choice
    other than 1, 2 and 3 has left the loop.  What the loop does once the
    input has run out (the reads fail and leave [choice] as it was) is not
    modelled. *)
Fixpoint main_loop (parking : ParkingSystem.t) (rounds : list Round)
    : option (ParkingSystem.t * list Output) :=
  match rounds with
  | [] => Some (parking, [])
  | r :: rest =>
      if bool_decide (choice r = 1) then
        '(s1, o) ← ParkingSystem.parkVehicle (round_typeChoice r) (round_reg r)
                     (round_now r) parking;
        '(s2, os) ← main_loop s1 rest;
        Some (s2, o :: os)
      else if bool_decide (choice r = 2) then
        '(s1, o) ← ParkingSystem.unparkVehicle (round_reg r) (round_now r) parking;
        '(s2, os) ← main_loop s1 rest;
        Some (s2, o :: os)
      else if bool_decide (choice r = 3) then
        '(s2, os) ← main_loop parking rest;
        Some (s2, ParkingSystem.displayStatus parking :: os)
      else Some (parking, [])
  end.

Definition main (rounds : list Round) : option (ParkingSystem.t * list Output) :=
  main_loop (ParkingSystem.new 3 10 5) rounds.

(** The commands the loop of [main] carries out: those of the rounds before
    the first round whose choice is not 1, 2 or 3. *)
Fixpoint commands_before_exit (rounds : list Round) : list Command :=
  match rounds with
  | [] => []
  | r :: rest =>
      if bool_decide (choice r = 1) then
        Park (round_typeChoice r) (round_reg r) (round_now r)
        :: commands_before_exit rest
      else if bool_decide (choice r = 2) then
        Unpark (round_reg r) (round_now r) :: commands_before_exit rest
      else if bool_decide (choice r = 3) then
        ViewStatus :: commands_before_exit rest
      else []
  end.

(** The registration a command is given, if any. *)
Definition command_reg (c : Command) : option string :=
  match c with
  | Park _ reg _ => Some reg
  | Unpark reg _ => Some reg
  | ViewStatus => None
  end.

(** A state in which the slot of the first park of "KA01" has lost its
    ticket to a second park. *)
Definition demo_reparked : ParkingSystem.t :=
  final_state demo_parked [Park 1 "KA01" 20].

(** * Properties *)

(** ** Rates *)

Lemma getHourlyRate_registration (v : Vehicle.t) (reg : string) :
  Vehicle.getHourlyRate (Vehicle.mk reg (Vehicle.type v) (Vehicle.class v))
  = Vehicle.getHourlyRate v.
Proof. reflexivity. Qed.

(** The products of [getHourlyRate] are exact in binary64, so that the
    rationals of the model are the doubles of the program. *)
Remark rates_exact_in_binary64 :
  PrimFloat.mul CAR_HOURLY_RATE_b64 factor_08_b64 = 16%float
  ∧ PrimFloat.mul CAR_HOURLY_RATE_b64 factor_05_b64 = 10%float
  ∧ PrimFloat.mul BIKE_HOURLY_RATE_b64 factor_05_b64 = 5%float.
Proof. repeat split; reflexivity. Qed.

(** C7: the hourly rate depends on the category only (not on the
    registration) and is the table of the specification: Car 20, Bike 10,
    ElectricCar 16 = 0.8 x Car, HandicappedCar 10 = 0.5 x Car,
    HandicappedBike 5 = 0.5 x Bike. *)
Theorem hourly_rate_table (c : VehicleCategory) (reg reg' : string) :
  (Vehicle.getHourlyRate (vehicle_of_category c reg) == spec_rate_table c)%Q
  ∧ Vehicle.getHourlyRate (vehicle_of_category c reg)
    = Vehicle.getHourlyRate (vehicle_of_category c reg')
  ∧ (Vehicle.getHourlyRate (Vehicle.ElectricCar reg)
     == 0.8 * Vehicle.getHourlyRate (Vehicle.Car reg))%Q
  ∧ (Vehicle.getHourlyRate (Vehicle.HandicappedVehicle reg CAR)
     == 0.5 * Vehicle.getHourlyRate (Vehicle.Car reg))%Q
  ∧ (Vehicle.getHourlyRate (Vehicle.HandicappedVehicle reg BIKE)
     == 0.5 * Vehicle.getHourlyRate (Vehicle.Bike reg))%Q.
Proof.
  split; [destruct c; reflexivity|].
  split; [destruct c; reflexivity|].
  repeat split; reflexivity.
Qed.

(** ** Operations that fail *)

Lemma has_free_slot_true type s :
  has_free_slot type s = true
  ↔ ∃ f sl, f ∈ ParkingSystem.floors s ∧ sl ∈ ParkingFloor.slots f
            ∧ ParkingSlot.isCompatible type sl = true.
Proof.
  unfold has_free_slot. rewrite existsb_exists. split.
  - intros (f & Hf%list_elem_of_In & (sl & Hsl%list_elem_of_In & Hc)%existsb_exists).
    eauto.
  - intros (f & sl & Hf & Hsl & Hc). exists f. split; [by apply list_elem_of_In|].
    apply existsb_exists. exists sl. split; [by apply list_elem_of_In|done].
Qed.

Lemma findAvailableSlot_None (type : VehicleType) (f : ParkingFloor.t) :
  ParkingFloor.findAvailableSlot type f = None
  ↔ ∀ sl, sl ∈ ParkingFloor.slots f → ParkingSlot.isCompatible type sl = false.
Proof.
  unfold ParkingFloor.findAvailableSlot. rewrite list_find_None, Forall_forall.
  split; intros H sl Hsl.
  - specialize (H sl Hsl). by destruct (ParkingSlot.isCompatible type sl).
  - rewrite (H sl Hsl). discriminate.
Qed.

Lemma parkVehicle_floors_none now v fs :
  (∀ f, f ∈ fs → ParkingFloor.findAvailableSlot (Vehicle.type v) f = None) →
  ParkingSystem.parkVehicle_floors now (Some v) fs = Some None.
Proof.
  induction fs as [|f rest IH]; intros Hnone; [done|].
  simpl. unfold Vehicle.getType.
  rewrite (Hnone f) by left.
  rewrite IH; [done|]. intros f' Hf'. apply Hnone. by right.
Qed.

(** C3: when no floor has a free slot whose allowed type is the type of
    the vehicle, parking prints that no slot is available, issues no
    ticket, and the facility (slots, active tickets, ticket counter,
    revenue) is the same. *)
Theorem park_full_unchanged (typeChoice : Z) (reg : string) (now : time_point)
    (s : ParkingSystem.t) :
  has_free_slot (Vehicle.type (ParkingSystem.make_vehicle typeChoice reg)) s = false →
  ParkingSystem.parkVehicle typeChoice reg now s = Some (s, NoSlotsAvailable).
Proof.
  intros Hfull. unfold ParkingSystem.parkVehicle.
  rewrite parkVehicle_floors_none; [done|].
  intros f Hf. apply findAvailableSlot_None. intros sl Hsl.
  destruct (ParkingSlot.isCompatible _ sl) eqn:E; [|done].
  rewrite (proj2 (has_free_slot_true _ s)) in Hfull; [done|]. by exists f, sl.
Qed.

Lemma park_full_unchanged_witness :
  has_free_slot CAR demo_full = false
  ∧ ParkingSystem.parkVehicle 1 "KA02" 5 demo_full = Some (demo_full, NoSlotsAvailable).
Proof.
  split; [reflexivity|]. apply park_full_unchanged. reflexivity.
Defined.


(** C4: unparking a registration that has no active ticket prints
    "Vehicle not found." and the facility is the same. *)
Theorem unpark_unknown_unchanged (reg : string) (now : time_point)
    (s : ParkingSystem.t) :
  ParkingSystem.activeTickets s !! reg = None →
  ParkingSystem.unparkVehicle reg now s = Some (s, VehicleNotFound)
  ∧ printed_text VehicleNotFound = "Vehicle not found.".
Proof.
  intros Hnone. unfold ParkingSystem.unparkVehicle. by rewrite Hnone.
Qed.

Lemma unpark_unknown_unchanged_witness :
  ParkingSystem.unparkVehicle "KA99" 5 demo_parked = Some (demo_parked, VehicleNotFound)
  ∧ printed_text VehicleNotFound = "Vehicle not found.".
Proof. apply unpark_unknown_unchanged. reflexivity. Defined.


(** ** The loops over the slots of a floor *)

Lemma isCompatible_true type sl :
  ParkingSlot.isCompatible type sl = true
  ↔ ParkingSlot.status sl = FREE ∧ ParkingSlot.allowedType sl = type.
Proof.
  unfold ParkingSlot.isCompatible.
  rewrite andb_true_iff, !bool_decide_eq_true. done.
Qed.

Lemma findAvailableSlot_Some type f i sl :
  ParkingFloor.findAvailableSlot type f = Some (i, sl)
  ↔ ParkingFloor.slots f !! i = Some sl
    ∧ ParkingSlot.isCompatible type sl = true
    ∧ ∀ j sl', ParkingFloor.slots f !! j = Some sl' → (j < i)%nat →
        ParkingSlot.isCompatible type sl' = false.
Proof.
  unfold ParkingFloor.findAvailableSlot. rewrite list_find_Some.
  split; intros (Hi & Hc & Hmin); (split; [done|split; [done|]]);
    intros j sl' Hj Hlt; specialize (Hmin j sl' Hj Hlt).
  - by destruct (ParkingSlot.isCompatible type sl').
  - by rewrite Hmin.
Qed.

(** When the ids before position [i] differ from the id of the slot at
    [i], the loop of [ParkingFloor::parkVehicle] reaches that slot with the
    vehicle still in hand. *)
Lemma parkVehicle_slots_hit now v ss i sl :
  ss !! i = Some sl →
  ParkingSlot.isCompatible (Vehicle.type v) sl = true →
  (∀ j sl', (j < i)%nat → ss !! j = Some sl' →
     ParkingSlot.id sl' ≠ ParkingSlot.id sl) →
  ParkingFloor.parkVehicle_slots now (ParkingSlot.id sl) (Some v) ss
  = Some (true, <[i := ParkingSlot.occupy now v sl]> ss).
Proof.
  revert i. induction ss as [|s rest IH]; intros i Hi Hc Hids; [done|].
  destruct i as [|i]; simpl in *.
  - injection Hi as ->. unfold ParkingSlot.getId.
    rewrite bool_decide_eq_true_2 by done.
    unfold ParkingSlot.parkVehicle, Vehicle.getType. simpl. by rewrite Hc.
  - unfold ParkingSlot.getId.
    rewrite bool_decide_eq_false_2 by (apply (Hids 0%nat); [lia|done]).
    rewrite (IH i); [done..|].
    intros j sl' Hj Hl. apply (Hids (S j)); [lia|done].
Qed.

Lemma vacateSlot_slots_hit ss i sl :
  ss !! i = Some sl →
  ParkingSlot.status sl = OCCUPIED →
  (∀ j sl', (j < i)%nat → ss !! j = Some sl' →
     ParkingSlot.id sl' ≠ ParkingSlot.id sl) →
  ParkingFloor.vacateSlot_slots (ParkingSlot.id sl) ss
  = Some (ParkingSlot.currentVehicle sl, <[i := (ParkingSlot.vacate sl).2]> ss).
Proof.
  revert i. induction ss as [|s rest IH]; intros i Hi Hocc Hids; [done|].
  destruct i as [|i]; simpl in *.
  - injection Hi as ->. unfold ParkingSlot.getId, ParkingSlot.getStatus.
    by rewrite !bool_decide_eq_true_2.
  - unfold ParkingSlot.getId.
    rewrite (bool_decide_eq_false_2 (ParkingSlot.id s = _))
      by (apply (Hids 0%nat); [lia|done]).
    simpl. rewrite (IH i); [done..|].
    intros j sl' Hj Hl. apply (Hids (S j)); [lia|done].
Qed.

(** ** Counting occupied slots *)

Lemma occupied_count_cons sl ss :
  occupied_count (sl :: ss) = occ_bit sl + occupied_count ss.
Proof.
  unfold occupied_count, occ_bit. rewrite filter_cons.
  case_bool_decide; case_decide; try done; simpl; lia.
Qed.

Lemma occupied_count_insert ss i sl sl' :
  ss !! i = Some sl →
  occupied_count (<[i := sl']> ss) = occupied_count ss - occ_bit sl + occ_bit sl'.
Proof.
  revert i. induction ss as [|s rest IH]; intros i Hi; [done|].
  destruct i as [|i]; simpl in *.
  - injection Hi as ->. rewrite !occupied_count_cons. lia.
  - rewrite !occupied_count_cons, (IH i Hi). lia.
Qed.

Lemma occupied_count_bounds ss :
  0 ≤ occupied_count ss ≤ Z.of_nat (length ss).
Proof.
  unfold occupied_count. pose proof (length_filter (λ sl, ParkingSlot.status sl = OCCUPIED) ss).
  lia.
Qed.

(** ** Positions *)

Lemma slot_at_insert fs k f f' k' j :
  fs !! k = Some f →
  slot_at (<[k := f']> fs) k' j
  = if decide (k' = k) then ParkingFloor.slots f' !! j else slot_at fs k' j.
Proof.
  intros Hk. unfold slot_at. case_decide as E.
  - subst. rewrite list_lookup_insert_eq; [done|]. by eapply lookup_lt_Some.
  - by rewrite list_lookup_insert_ne.
Qed.

Lemma slot_at_floor fs k j sl :
  slot_at fs k j = Some sl ↔ ∃ f, fs !! k = Some f ∧ ParkingFloor.slots f !! j = Some sl.
Proof.
  unfold slot_at. destruct (fs !! k) as [f|]; simpl.
  - split; [by exists f | by intros (? & [= <-] & ?)].
  - split; [done | by intros (? & ? & ?)].
Qed.

(** ** The loop over the floors *)

Lemma parkVehicle_floors_first_fit now v fs :
  (∀ k j sl, slot_at fs k j = Some sl → ParkingSlot.id sl = Z.of_nat j + 1) →
  (ParkingSystem.parkVehicle_floors now (Some v) fs = Some None
   ∧ ∀ f, f ∈ fs → ParkingFloor.findAvailableSlot (Vehicle.type v) f = None)
  ∨ ∃ k f i sl,
      fs !! k = Some f
      ∧ (∀ k' f', (k' < k)%nat → fs !! k' = Some f' →
           ParkingFloor.findAvailableSlot (Vehicle.type v) f' = None)
      ∧ ParkingFloor.findAvailableSlot (Vehicle.type v) f = Some (i, sl)
      ∧ ParkingSystem.parkVehicle_floors now (Some v) fs
        = Some (Some (<[k := floor_park now v i f sl]> fs,
                      ParkingSlot.occupy now v sl)).
Proof.
  induction fs as [|f rest IH]; intros Hids.
  { left. split; [done|]. intros f Hf. by apply elem_of_nil in Hf. }
  destruct (ParkingFloor.findAvailableSlot (Vehicle.type v) f) as [[i sl]|] eqn:Hfind.
  - right. exists 0%nat, f, i, sl. split; [done|]. split; [intros; lia|].
    split; [done|]. simpl. unfold Vehicle.getType. rewrite Hfind.
    apply findAvailableSlot_Some in Hfind as (Hi & Hc & _).
    unfold ParkingFloor.parkVehicle, ParkingSlot.getId.
    rewrite (parkVehicle_slots_hit now v _ i sl Hi Hc).
    + simpl. rewrite list_lookup_insert_eq; [done|]. by eapply lookup_lt_Some.
    + intros j sl' Hlt Hj.
      rewrite (Hids 0%nat j sl'), (Hids 0%nat i sl) by done. lia.
  - destruct IH as [[Hrun Hnone]|(k & f' & i & sl & Hk & Hbefore & Hfind' & Hrun)].
    { intros k j sl. apply (Hids (S k)). }
    + left. split.
      * simpl. unfold Vehicle.getType. by rewrite Hfind, Hrun.
      * intros f' [->|Hf']%elem_of_cons; [done|by apply Hnone].
    + right. exists (S k), f', i, sl. split; [done|]. split.
      { intros [|k'] f'' Hlt Hk'; simpl in Hk'.
        - by injection Hk' as <-.
        - apply (Hbefore k'); [lia|done]. }
      split; [done|]. simpl. unfold Vehicle.getType. by rewrite Hfind, Hrun.
Qed.

Lemma parkVehicle_cases typeChoice reg now s :
  (∀ k j sl, slot_at (ParkingSystem.floors s) k j = Some sl →
     ParkingSlot.id sl = Z.of_nat j + 1) →
  let type := Vehicle.type (ParkingSystem.make_vehicle typeChoice reg) in
  (ParkingSystem.parkVehicle typeChoice reg now s = Some (s, NoSlotsAvailable)
   ∧ has_free_slot type s = false)
  ∨ ∃ k f i sl,
      ParkingSystem.floors s !! k = Some f
      ∧ (∀ k' f', (k' < k)%nat → ParkingSystem.floors s !! k' = Some f' →
           ParkingFloor.findAvailableSlot type f' = None)
      ∧ ParkingFloor.findAvailableSlot type f = Some (i, sl)
      ∧ ParkingSystem.parkVehicle typeChoice reg now s
        = Some (park_state typeChoice reg now k i f sl s,
                VehicleParked (int_wrap (ParkingSystem.ticketCounter s + 1))).
Proof.
  intros Hids type.
  destruct (parkVehicle_floors_first_fit now
              (ParkingSystem.make_vehicle typeChoice reg) _ Hids)
    as [[Hrun Hnone]|(k & f & i & sl & Hk & Hbefore & Hfind & Hrun)].
  - left. unfold ParkingSystem.parkVehicle. rewrite Hrun. split; [done|].
    destruct (has_free_slot type s) eqn:E; [|done].
    apply has_free_slot_true in E as (f & sl & Hf & Hsl & Hc).
    specialize (Hnone f Hf). rewrite findAvailableSlot_None in Hnone.
    fold type in Hnone. rewrite (Hnone sl Hsl) in Hc. done.
  - right. exists k, f, i, sl. do 3 (split; [done|]).
    unfold ParkingSystem.parkVehicle. rewrite Hrun. done.
Qed.

Lemma make_vehicle_cases typeChoice reg :
  let v := ParkingSystem.make_vehicle typeChoice reg in
  Vehicle.registration v = reg
  ∧ ((v = Vehicle.Car reg ∧ Vehicle.type v = CAR)
     ∨ (v = Vehicle.Bike reg ∧ Vehicle.type v = BIKE)).
Proof.
  unfold ParkingSystem.make_vehicle. case_bool_decide; split; auto.
Qed.

Lemma invariant_ids s :
  invariant s →
  ∀ k j sl, slot_at (ParkingSystem.floors s) k j = Some sl →
    ParkingSlot.id sl = Z.of_nat j + 1.
Proof. intros Hinv k j sl Hsl. by apply (inv_slot s Hinv k j sl). Qed.

Lemma park_state_slot_at typeChoice reg now s k f i sl k' j :
  ParkingSystem.floors s !! k = Some f →
  ParkingFloor.slots f !! i = Some sl →
  slot_at (ParkingSystem.floors (park_state typeChoice reg now k i f sl s)) k' j
  = if decide (k' = k ∧ j = i)
    then Some (ParkingSlot.occupy now (ParkingSystem.make_vehicle typeChoice reg) sl)
    else slot_at (ParkingSystem.floors s) k' j.
Proof.
  intros Hk Hi. unfold park_state. simpl.
  rewrite (slot_at_insert _ k f) by done. simpl.
  destruct (decide (k' = k)) as [->|Hne].
  - destruct (decide (j = i)) as [->|Hne'].
    + rewrite decide_True by done.
      rewrite list_lookup_insert_eq; [done|]. by eapply lookup_lt_Some.
    + rewrite decide_False by tauto.
      rewrite list_lookup_insert_ne by done.
      symmetry. unfold slot_at. by rewrite Hk.
  - by rewrite decide_False by tauto.
Qed.

Lemma park_state_invariant typeChoice reg now s k f i sl :
  invariant s →
  ParkingSystem.floors s !! k = Some f →
  ParkingFloor.findAvailableSlot
    (Vehicle.type (ParkingSystem.make_vehicle typeChoice reg)) f = Some (i, sl) →
  invariant (park_state typeChoice reg now k i f sl s).
Proof.
  intros Hinv Hk Hfind.
  apply findAvailableSlot_Some in Hfind as (Hi & [Hfree Hallowed]%isCompatible_true & _).
  set (v := ParkingSystem.make_vehicle typeChoice reg) in *.
  assert (Hsl : slot_at (ParkingSystem.floors s) k i = Some sl)
    by (apply slot_at_floor; eauto).
  destruct (inv_slot s Hinv k i sl Hsl) as (Hid & Hfl & Hcons).
  assert (Hnew : ∀ k' j,
    slot_at (<[k := floor_park now v i f sl]> (ParkingSystem.floors s)) k' j
    = if decide (k' = k ∧ j = i) then Some (ParkingSlot.occupy now v sl)
      else slot_at (ParkingSystem.floors s) k' j)
    by (intros k' j; apply (park_state_slot_at typeChoice reg now s); done).
  split; unfold park_state; simpl; fold v.
  - intros k' f' Hk'. destruct (decide (k' = k)) as [->|Hne].
    + rewrite list_lookup_insert_eq in Hk' by (by eapply lookup_lt_Some).
      injection Hk' as <-. destruct (inv_floor s Hinv k f Hk) as [Hnum Hocc].
      split; [done|]. simpl.
      rewrite (occupied_count_insert _ i sl) by done. rewrite Hocc.
      unfold occ_bit. simpl. rewrite Hfree. simpl. lia.
    + rewrite list_lookup_insert_ne in Hk' by done.
      by apply (inv_floor s Hinv).
  - intros k' j sl'. rewrite Hnew. case_decide as E.
    + destruct E as [-> ->]. intros [= <-]. simpl. do 2 (split; [done|]).
      unfold slot_consistent. simpl. split; [done|]. split.
      * by rewrite Hallowed.
      * destruct (make_vehicle_cases typeChoice reg) as [Hr [[Hv _]|[Hv _]]];
          fold v in Hr, Hv; rewrite Hr; auto.
    + by apply (inv_slot s Hinv).
  - intros reg' tk. destruct (decide (reg' = reg)) as [->|Hne].
    + rewrite lookup_insert_eq. intros [= <-].
      exists k, i, (ParkingSlot.occupy now v sl), v. simpl.
      do 2 (split; [done|]). split.
      { rewrite Hnew. by rewrite decide_True. }
      do 2 (split; [done|]).
      split; [|done]. apply (make_vehicle_cases typeChoice reg).
    + rewrite lookup_insert_ne by done. intros Htk.
      destruct (inv_ticket s Hinv reg' tk Htk)
        as (k' & j & sl' & v' & Hf' & Hs' & Hat & Hcur & Hrest).
      exists k', j, sl', v'. do 2 (split; [done|]). split; [|done].
      rewrite Hnew. rewrite decide_False; [done|].
      intros [-> ->]. rewrite Hsl in Hat. injection Hat as <-.
      unfold slot_consistent in Hcons. rewrite Hcur in Hcons.
      destruct Hcons as [Hocc _]. congruence.
  - intros r1 r2 t1 t2.
    assert (Hold : ∀ r tk, ParkingSystem.activeTickets s !! r = Some tk →
      ¬ (Ticket.floor tk = ParkingSlot.floor sl ∧ Ticket.slotId tk = ParkingSlot.id sl)).
    { intros r tk Htk [Ef Es].
      destruct (inv_ticket s Hinv r tk Htk)
        as (k' & j & sl' & v' & Hf' & Hs' & Hat & Hcur & _).
      assert (k' = k) as -> by lia. assert (j = i) as -> by lia.
      rewrite Hsl in Hat. injection Hat as <-.
      unfold slot_consistent in Hcons. rewrite Hcur in Hcons.
      destruct Hcons as [Hocc _]. congruence. }
    destruct (decide (r1 = reg)) as [->|Hne1];
      destruct (decide (r2 = reg)) as [->|Hne2]; [done|..].
    + rewrite lookup_insert_eq, lookup_insert_ne by done.
      intros [= <-] Ht2 Ef Es. simpl in *. destruct (Hold r2 t2 Ht2). auto.
    + rewrite lookup_insert_eq, lookup_insert_ne by done.
      intros Ht1 [= <-] Ef Es. simpl in *. destruct (Hold r1 t1 Ht1). auto.
    + rewrite !lookup_insert_ne by done. apply (inv_inj s Hinv).
Qed.

Lemma unparkVehicle_cases reg now s tk :
  invariant s →
  ParkingSystem.activeTickets s !! reg = Some tk →
  ∃ k j f sl v,
    Ticket.floor tk = Z.of_nat k + 1 ∧ Ticket.slotId tk = Z.of_nat j + 1
    ∧ ParkingSystem.floors s !! k = Some f
    ∧ ParkingFloor.slots f !! j = Some sl
    ∧ ParkingSlot.currentVehicle sl = Some v
    ∧ Ticket.vehicleType tk = Vehicle.type v
    ∧ ParkingSystem.unparkVehicle reg now s
      = Some (unpark_state reg now k j f sl tk s,
              ParkingCharge (ParkingSystem.charge_of now tk)).
Proof.
  intros Hinv Htk.
  destruct (inv_ticket s Hinv reg tk Htk)
    as (k & j & sl & v & Hf & Hs & Hat & Hcur & Hty & _).
  pose proof Hat as Hat'. apply slot_at_floor in Hat' as (f & Hk & Hj).
  exists k, j, f, sl, v. do 6 (split; [done|]).
  destruct (inv_slot s Hinv k j sl Hat) as (Hid & _ & Hcons).
  unfold slot_consistent in Hcons. rewrite Hcur in Hcons. destruct Hcons as [Hocc _].
  unfold ParkingSystem.unparkVehicle. rewrite Htk.
  unfold ParkingSystem.vacate_at, Ticket.getFloor, Ticket.getSlotId.
  rewrite Hf, Hs. rewrite bool_decide_eq_true_2 by lia.
  replace (Z.to_nat (Z.of_nat k + 1 - 1)) with k by lia.
  rewrite Hk. simpl. unfold ParkingFloor.vacateSlot.
  rewrite <- Hid. rewrite (vacateSlot_slots_hit _ j sl Hj Hocc); [done|].
  intros j' sl' Hlt Hj'.
  rewrite (invariant_ids s Hinv k j' sl'), Hid; [lia|].
  apply slot_at_floor; eauto.
Qed.

Lemma unpark_state_slot_at reg now s tk k f j sl k' j' :
  ParkingSystem.floors s !! k = Some f →
  ParkingFloor.slots f !! j = Some sl →
  slot_at (ParkingSystem.floors (unpark_state reg now k j f sl tk s)) k' j'
  = if decide (k' = k ∧ j' = j) then Some (ParkingSlot.vacate sl).2
    else slot_at (ParkingSystem.floors s) k' j'.
Proof.
  intros Hk Hj. unfold unpark_state. simpl.
  rewrite (slot_at_insert _ k f) by done. simpl.
  destruct (decide (k' = k)) as [->|Hne].
  - destruct (decide (j' = j)) as [->|Hne'].
    + rewrite decide_True by done.
      rewrite list_lookup_insert_eq; [done|]. by eapply lookup_lt_Some.
    + rewrite decide_False by tauto.
      rewrite list_lookup_insert_ne by done.
      symmetry. unfold slot_at. by rewrite Hk.
  - by rewrite decide_False by tauto.
Qed.

Lemma unpark_state_invariant reg now s tk k j f sl :
  invariant s →
  ParkingSystem.activeTickets s !! reg = Some tk →
  Ticket.floor tk = Z.of_nat k + 1 → Ticket.slotId tk = Z.of_nat j + 1 →
  ParkingSystem.floors s !! k = Some f →
  ParkingFloor.slots f !! j = Some sl →
  invariant (unpark_state reg now k j f sl tk s).
Proof.
  intros Hinv Htk Hf Hs Hk Hj.
  assert (Hsl : slot_at (ParkingSystem.floors s) k j = Some sl)
    by (apply slot_at_floor; eauto).
  destruct (inv_slot s Hinv k j sl Hsl) as (Hid & Hfl & Hcons).
  assert (Hocc : ParkingSlot.status sl = OCCUPIED).
  { destruct (inv_ticket s Hinv reg tk Htk)
      as (k' & j' & sl' & v & Hf' & Hs' & Hat & Hcur & _).
    assert (k' = k) as -> by lia. assert (j' = j) as -> by lia.
    rewrite Hsl in Hat. injection Hat as <-.
    unfold slot_consistent in Hcons. rewrite Hcur in Hcons. tauto. }
  assert (Hnew : ∀ k' j',
    slot_at (<[k := floor_vacate j f sl]> (ParkingSystem.floors s)) k' j'
    = if decide (k' = k ∧ j' = j) then Some (ParkingSlot.vacate sl).2
      else slot_at (ParkingSystem.floors s) k' j')
    by (intros k' j'; apply (unpark_state_slot_at reg now s tk); done).
  split; unfold unpark_state; simpl.
  - intros k' f' Hk'. destruct (decide (k' = k)) as [->|Hne].
    + rewrite list_lookup_insert_eq in Hk' by (by eapply lookup_lt_Some).
      injection Hk' as <-. destruct (inv_floor s Hinv k f Hk) as [Hnum Hcount].
      split; [done|]. simpl.
      rewrite (occupied_count_insert _ j sl) by done. rewrite Hcount.
      unfold occ_bit. simpl. rewrite Hocc. simpl. lia.
    + rewrite list_lookup_insert_ne in Hk' by done.
      by apply (inv_floor s Hinv).
  - intros k' j' sl'. rewrite Hnew. case_decide as E.
    + destruct E as [-> ->]. intros [= <-]. simpl. by do 2 (split; [done|]).
    + by apply (inv_slot s Hinv).
  - intros reg' tk'. destruct (decide (reg' = reg)) as [->|Hne].
    + by rewrite lookup_delete_eq.
    + rewrite lookup_delete_ne by done. intros Htk'.
      destruct (inv_ticket s Hinv reg' tk' Htk')
        as (k' & j' & sl' & v' & Hf' & Hs' & Hat & Hrest).
      exists k', j', sl', v'. do 2 (split; [done|]). split; [|done].
      rewrite Hnew. rewrite decide_False; [done|].
      intros [-> ->]. apply Hne.
      apply (inv_inj s Hinv reg' reg tk' tk); congruence.
  - intros r1 r2 t1 t2.
    destruct (decide (r1 = reg)) as [->|Hne1]; [by rewrite lookup_delete_eq|].
    destruct (decide (r2 = reg)) as [->|Hne2]; [by rewrite (lookup_delete_eq _ reg)|].
    rewrite !lookup_delete_ne by done. apply (inv_inj s Hinv).
Qed.

(** ** The freshly constructed facility *)

Lemma emplace_slots_spec n ty fl id :
  (ParkingFloor.emplace_slots n ty fl id).2 = id + Z.of_nat n
  ∧ length (ParkingFloor.emplace_slots n ty fl id).1 = n
  ∧ ∀ j sl, (ParkingFloor.emplace_slots n ty fl id).1 !! j = Some sl →
      sl = ParkingSlot.new (id + Z.of_nat j) fl ty.
Proof.
  revert id. induction n as [|n IH]; intros id; simpl.
  - split; [lia|]. split; [done|]. intros j sl Hj. done.
  - specialize (IH (id + 1)).
    destruct (ParkingFloor.emplace_slots n ty fl (id + 1)) as [rest id'] eqn:E.
    simpl in *. destruct IH as (Hid & Hlen & Hslots).
    split; [lia|]. split; [by rewrite Hlen|].
    intros [|j] sl Hj; simpl in Hj.
    + injection Hj as <-. f_equal. lia.
    + rewrite (Hslots j sl Hj). f_equal. lia.
Qed.

Lemma new_floor_spec fl c b :
  ParkingFloor.floorNumber (ParkingFloor.new fl c b) = fl
  ∧ ParkingFloor.occupiedSlots (ParkingFloor.new fl c b) = 0
  ∧ length (ParkingFloor.slots (ParkingFloor.new fl c b))
    = (Z.to_nat c + Z.to_nat b)%nat
  ∧ ∀ j sl, ParkingFloor.slots (ParkingFloor.new fl c b) !! j = Some sl →
      sl = ParkingSlot.new (Z.of_nat j + 1) fl
             (if decide (j < Z.to_nat c)%nat then CAR else BIKE).
Proof.
  unfold ParkingFloor.new.
  pose proof (emplace_slots_spec (Z.to_nat c) CAR fl 1) as (Hid & Hlen & Hcars).
  destruct (ParkingFloor.emplace_slots (Z.to_nat c) CAR fl 1) as [cars id] eqn:E1.
  pose proof (emplace_slots_spec (Z.to_nat b) BIKE fl id) as (_ & Hlen' & Hbikes).
  destruct (ParkingFloor.emplace_slots (Z.to_nat b) BIKE fl id) as [bikes id'] eqn:E2.
  simpl in *. do 2 (split; [done|]).
  split; [by rewrite length_app, Hlen, Hlen'|].
  intros j sl Hj. apply lookup_app_Some in Hj as [Hj|[Hge Hj]].
  - pose proof (lookup_lt_Some _ _ _ Hj). rewrite decide_True by lia.
    rewrite (Hcars j sl Hj). f_equal. lia.
  - rewrite decide_False by lia.
    rewrite (Hbikes _ sl Hj). f_equal. lia.
Qed.

Lemma occupied_count_zero ss :
  (∀ j sl, ss !! j = Some sl → ParkingSlot.status sl = FREE) →
  occupied_count ss = 0.
Proof.
  induction ss as [|s rest IH]; intros Hfree; [done|].
  rewrite occupied_count_cons, IH.
  - unfold occ_bit. rewrite (Hfree 0%nat s) by done. done.
  - intros j sl Hj. apply (Hfree (S j)). done.
Qed.

Lemma new_floors_lookup n c b k f :
  ParkingSystem.floors (ParkingSystem.new n c b) !! k = Some f →
  f = ParkingFloor.new (Z.of_nat k + 1) c b.
Proof.
  simpl. rewrite list_lookup_fmap.
  destruct (seqZ 1 n !! k) as [i|] eqn:E; [|done].
  apply lookup_seqZ in E as [-> _]. intros [= <-]. f_equal. lia.
Qed.

Lemma new_invariant n c b : invariant (ParkingSystem.new n c b).
Proof.
  split.
  - intros k f ->%new_floors_lookup.
    destruct (new_floor_spec (Z.of_nat k + 1) c b) as (Hnum & Hocc & _ & Hslots).
    split; [done|]. rewrite Hocc. symmetry. apply occupied_count_zero.
    intros j sl Hj. by rewrite (Hslots j sl Hj).
  - intros k j sl (f & ->%new_floors_lookup & Hj)%slot_at_floor.
    destruct (new_floor_spec (Z.of_nat k + 1) c b) as (_ & _ & _ & Hslots).
    rewrite (Hslots j sl Hj). done.
  - intros reg tk. simpl. by rewrite lookup_empty.
  - intros r1 r2 t1 t2. simpl. by rewrite lookup_empty.
Qed.

(** ** Every run of the menu loop is defined and keeps the invariant *)

Lemma step_invariant s c :
  invariant s → ∃ s' o, step s c = Some (s', o) ∧ invariant s'.
Proof.
  intros Hinv. destruct c as [typeChoice reg now|reg now|]; simpl.
  - destruct (parkVehicle_cases typeChoice reg now s (invariant_ids s Hinv))
      as [[Hrun _]|(k & f & i & sl & Hk & _ & Hfind & Hrun)].
    + eauto.
    + eexists _, _. split; [exact Hrun|]. by apply park_state_invariant.
  - destruct (ParkingSystem.activeTickets s !! reg) as [tk|] eqn:Htk.
    + destruct (unparkVehicle_cases reg now s tk Hinv Htk)
        as (k & j & f & sl & v & Hf & Hs & Hk & Hj & _ & _ & Hrun).
      eexists _, _. split; [exact Hrun|]. by eapply unpark_state_invariant.
    + exists s, VehicleNotFound. split; [|done].
      unfold ParkingSystem.unparkVehicle. by rewrite Htk.
  - eauto.
Qed.

Lemma run_invariant s cs :
  invariant s → ∃ s' os, run s cs = Some (s', os) ∧ invariant s'.
Proof.
  revert s. induction cs as [|c cs IH]; intros s Hinv; simpl; [eauto|].
  destruct (step_invariant s c Hinv) as (s1 & o & Hstep & Hinv1).
  destruct (IH s1 Hinv1) as (s2 & os & Hrun & Hinv2).
  rewrite Hstep. simpl. rewrite Hrun. simpl. eauto.
Qed.

Lemma reachable_invariant s : reachable s → invariant s.
Proof.
  intros (n & c & b & cs & os & Hrun).
  destruct (run_invariant _ cs (new_invariant n c b)) as (s' & os' & Hrun' & Hinv).
  congruence.
Qed.

Lemma demo_parked_reachable : reachable demo_parked.
Proof.
  exists 3, 10, 5, [Park 1 "KA01" 0; Park 2 "KA02" 10],
    [VehicleParked 1001; VehicleParked 1002].
  reflexivity.
Defined.

Lemma demo_full_reachable : reachable demo_full.
Proof. exists 1, 1, 0, [Park 1 "KA01" 0], [VehicleParked 1001]. reflexivity. Defined.


(** ** Slots by floor number and id *)

Lemma slot_at_slot_of s k j sl :
  invariant s →
  slot_at (ParkingSystem.floors s) k j = Some sl →
  slot_of s (Z.of_nat k + 1) (Z.of_nat j + 1) sl.
Proof.
  intros Hinv Hat. pose proof Hat as (f & Hk & Hj)%slot_at_floor.
  exists f. split; [by eapply list_elem_of_lookup_2|].
  split; [by apply (inv_floor s Hinv k f)|].
  split; [by eapply list_elem_of_lookup_2|].
  by apply (inv_slot s Hinv k j sl).
Qed.

Lemma slot_of_slot_at s flr slotId sl :
  invariant s →
  slot_of s flr slotId sl →
  ∃ k j, flr = Z.of_nat k + 1 ∧ slotId = Z.of_nat j + 1
         ∧ slot_at (ParkingSystem.floors s) k j = Some sl.
Proof.
  intros Hinv (f & (k & Hk)%list_elem_of_lookup_1 & Hnum
                 & (j & Hj)%list_elem_of_lookup_1 & Hid).
  assert (Hat : slot_at (ParkingSystem.floors s) k j = Some sl)
    by (apply slot_at_floor; eauto).
  exists k, j. split; [|split; [|done]].
  - rewrite <- Hnum. by apply (inv_floor s Hinv k f).
  - rewrite <- Hid. by apply (inv_slot s Hinv k j sl).
Qed.

Lemma slot_of_unique s flr slotId sl1 sl2 :
  invariant s →
  slot_of s flr slotId sl1 → slot_of s flr slotId sl2 → sl1 = sl2.
Proof.
  intros Hinv (k1 & j1 & Hf1 & Hs1 & Hat1)%slot_of_slot_at
              (k2 & j2 & Hf2 & Hs2 & Hat2)%slot_of_slot_at; [|done..].
  assert (k1 = k2) as -> by lia. assert (j1 = j2) as -> by lia. congruence.
Qed.

(** C6: in every state the program reaches, a slot that is occupied or
    holds a vehicle holds a vehicle whose type is the type the slot
    allows. *)
Theorem slot_holds_allowed_type (s : ParkingSystem.t)
    (f : ParkingFloor.t) (sl : ParkingSlot.t) :
  reachable s →
  f ∈ ParkingSystem.floors s → sl ∈ ParkingFloor.slots f →
  ParkingSlot.status sl = OCCUPIED ∨ is_Some (ParkingSlot.currentVehicle sl) →
  ∃ v, ParkingSlot.currentVehicle sl = Some v
       ∧ Vehicle.type v = ParkingSlot.allowedType sl
       ∧ ParkingSlot.status sl = OCCUPIED.
Proof.
  intros Hinv%reachable_invariant (k & Hk)%list_elem_of_lookup_1
         (j & Hj)%list_elem_of_lookup_1 Hholds.
  assert (Hat : slot_at (ParkingSystem.floors s) k j = Some sl)
    by (apply slot_at_floor; eauto).
  destruct (inv_slot s Hinv k j sl Hat) as (_ & _ & Hcons).
  unfold slot_consistent in Hcons.
  destruct (ParkingSlot.currentVehicle sl) as [v|].
  - exists v. tauto.
  - destruct Hholds as [Hocc|[v Hv]]; congruence.
Qed.

Lemma slot_holds_allowed_type_witness :
  ∃ v, ParkingSlot.currentVehicle
         (ParkingSlot.occupy 0 (Vehicle.Car "KA01") (ParkingSlot.new 1 1 CAR)) = Some v
       ∧ Vehicle.type v = CAR ∧ OCCUPIED = OCCUPIED.
Proof.
  apply (slot_holds_allowed_type demo_full
           (floor_park 0 (Vehicle.Car "KA01") 0 (ParkingFloor.new 1 1 0)
                       (ParkingSlot.new 1 1 CAR))
           (ParkingSlot.occupy 0 (Vehicle.Car "KA01") (ParkingSlot.new 1 1 CAR))).
  - exact demo_full_reachable.
  - vm_compute. apply list_elem_of_here.
  - vm_compute. apply list_elem_of_here.
  - left. reflexivity.
Defined.


(** ** The status report *)

Lemma displayStatus_sums s :
  ParkingSystem.displayStatus s
  = Status (total_slots s)
           (sumZ (ParkingFloor.occupiedSlots <$> ParkingSystem.floors s))
           (total_slots s - sumZ (ParkingFloor.occupiedSlots <$> ParkingSystem.floors s)).
Proof.
  unfold ParkingSystem.displayStatus, total_slots.
  assert (H : ∀ fs a b,
    foldl (λ '(total, occ) f,
             (total + ParkingFloor.getTotalSlots f,
              occ + ParkingFloor.getOccupiedSlots f)) (a, b) fs
    = (a + sumZ ((λ f, Z.of_nat (length (ParkingFloor.slots f))) <$> fs),
       b + sumZ (ParkingFloor.occupiedSlots <$> fs))).
  { induction fs as [|f fs IH]; intros a b; simpl.
    - f_equal; lia.
    - rewrite IH. unfold ParkingFloor.getTotalSlots, ParkingFloor.getOccupiedSlots.
      f_equal; symmetry; apply Z.add_assoc. }
  rewrite H. done.
Qed.

(** C10: in every state the program reaches, the occupied-slots counter of
    each floor is the number of its slots whose status is OCCUPIED; the
    status report therefore prints the total number of slots, the true
    number of occupied slots, and their difference. *)
Theorem occupied_counter_exact (s : ParkingSystem.t) :
  reachable s →
  (∀ f, f ∈ ParkingSystem.floors s →
     ParkingFloor.occupiedSlots f = occupied_count (ParkingFloor.slots f))
  ∧ ParkingSystem.displayStatus s
    = Status (total_slots s) (total_occupied s) (total_slots s - total_occupied s).
Proof.
  intros Hinv%reachable_invariant.
  assert (Hfloors : ∀ f, f ∈ ParkingSystem.floors s →
     ParkingFloor.occupiedSlots f = occupied_count (ParkingFloor.slots f)).
  { intros f (k & Hk)%list_elem_of_lookup_1. by apply (inv_floor s Hinv k f). }
  split; [done|]. rewrite displayStatus_sums.
  replace (sumZ (ParkingFloor.occupiedSlots <$> ParkingSystem.floors s))
    with (total_occupied s); [done|].
  unfold total_occupied. f_equal. apply list_fmap_ext.
  intros k f Hk. symmetry. apply Hfloors. by eapply list_elem_of_lookup_2.
Qed.

Lemma occupied_counter_exact_witness :
  ParkingSystem.displayStatus demo_parked = Status 45 2 43.
Proof.
  destruct (occupied_counter_exact demo_parked demo_parked_reachable) as [_ H].
  exact H.
Defined.


(** ** What one operation does to the counter, the tickets and the revenue *)

Lemma parkVehicle_effect typeChoice reg now s s' o :
  ParkingSystem.parkVehicle typeChoice reg now s = Some (s', o) →
  ParkingSystem.totalRevenue s' = ParkingSystem.totalRevenue s
  ∧ ((o = NoSlotsAvailable ∧ s' = s)
     ∨ (o = VehicleParked (int_wrap (ParkingSystem.ticketCounter s + 1))
        ∧ ParkingSystem.ticketCounter s'
          = int_wrap (ParkingSystem.ticketCounter s + 1)
        ∧ ∃ tk, ParkingSystem.activeTickets s'
                = <[reg := tk]> (ParkingSystem.activeTickets s)
                ∧ Ticket.id tk = int_wrap (ParkingSystem.ticketCounter s + 1)
                ∧ Ticket.entryTime tk = now)).
Proof.
  unfold ParkingSystem.parkVehicle.
  destruct (ParkingSystem.parkVehicle_floors _ _ _) as [[[fs slot]|]|]; simpl; [| |done].
  - destruct (ParkingSlot.getCurrentVehicle slot) as [cur|]; simpl; [|done].
    intros [= <- <-]. simpl. split; [done|]. right. do 2 (split; [done|]).
    eexists. split; [done|]. done.
  - intros [= <- <-]. split; [done|]. by left.
Qed.

Lemma unparkVehicle_effect reg now s s' o :
  ParkingSystem.unparkVehicle reg now s = Some (s', o) →
  ParkingSystem.ticketCounter s' = ParkingSystem.ticketCounter s
  ∧ ((ParkingSystem.activeTickets s !! reg = None ∧ o = VehicleNotFound ∧ s' = s)
     ∨ ∃ tk, ParkingSystem.activeTickets s !! reg = Some tk
             ∧ o = ParkingCharge (ParkingSystem.charge_of now tk)
             ∧ ParkingSystem.totalRevenue s'
               = (ParkingSystem.totalRevenue s + ParkingSystem.charge_of now tk)%Q
             ∧ ParkingSystem.activeTickets s'
               = delete reg (ParkingSystem.activeTickets s)).
Proof.
  unfold ParkingSystem.unparkVehicle.
  destruct (ParkingSystem.activeTickets s !! reg) as [tk|].
  - destruct (ParkingSystem.vacate_at _ _ _) as [fs|]; simpl; [|done].
    intros [= <- <-]. simpl. split; [done|]. right. by exists tk.
  - intros [= <- <-]. split; [done|]. by left.
Qed.

Lemma run_cons s c cs s' os :
  run s (c :: cs) = Some (s', os)
  ↔ ∃ s1 o os', step s c = Some (s1, o) ∧ run s1 cs = Some (s', os')
                ∧ os = o :: os'.
Proof.
  simpl. split.
  - destruct (step s c) as [[s1 o]|]; simpl; [|done].
    destruct (run s1 cs) as [[s2 os']|] eqn:E; simpl; [|done].
    intros [= <- <-]. by exists s1, o, os'.
  - intros (s1 & o & os' & -> & Hrun & ->). simpl. by rewrite Hrun.
Qed.

Lemma run_app s cs1 cs2 s' os :
  run s (cs1 ++ cs2) = Some (s', os)
  ↔ ∃ s1 os1 os2, run s cs1 = Some (s1, os1) ∧ run s1 cs2 = Some (s', os2)
                  ∧ os = os1 ++ os2.
Proof.
  revert s os. induction cs1 as [|c cs1 IH]; intros s os.
  - simpl. split.
    + intros Hrun. by exists s, [], os.
    + by intros (s1 & os1 & os2 & [= <- <-] & Hrun & ->).
  - rewrite <- app_comm_cons, run_cons. split.
    + intros (s1 & o & os' & Hstep & (s2 & os1 & os2 & H1 & H2 & ->)%IH & ->).
      exists s2, (o :: os1), os2. split; [|done].
      apply run_cons. by exists s1, o, os1.
    + intros (s2 & os1 & os2 & (s1 & o & os1' & Hstep & H1 & ->)%run_cons & H2 & ->).
      exists s1, o, (os1' ++ os2). split; [done|]. split; [|done].
      apply IH. by exists s2, os1', os2.
Qed.

(** ** Ticket ids *)

Lemma int_wrap_range z : -2147483648 ≤ z ≤ INT_MAX → int_wrap z = z.
Proof. unfold INT_MAX, int_wrap. intros H. rewrite Z.mod_small; lia. Qed.


Lemma int_wrap_add z k : int_wrap (int_wrap z + k) = int_wrap (z + k).
Proof.
  unfold int_wrap. f_equal.
  replace ((z + 2147483648) mod 4294967296 - 2147483648 + k + 2147483648)
    with ((z + 2147483648) mod 4294967296 + k) by lia.
  rewrite Zplus_mod_idemp_l. f_equal. lia.
Qed.

Lemma issued_ids_cons o os :
  issued_ids (o :: os)
  = match o with VehicleParked i => i :: issued_ids os | _ => issued_ids os end.
Proof. by destruct o. Qed.

(** An operation either issues no ticket and leaves the counter, or issues
    the wrapped successor of the counter, which is the new counter. *)
Lemma step_ticket_id s c s1 o :
  step s c = Some (s1, o) →
  (issued_ids [o] = [] ∧ ParkingSystem.ticketCounter s1 = ParkingSystem.ticketCounter s)
  ∨ (o = VehicleParked (int_wrap (ParkingSystem.ticketCounter s + 1))
     ∧ ParkingSystem.ticketCounter s1 = int_wrap (ParkingSystem.ticketCounter s + 1)).
Proof.
  intros Hstep. destruct c as [typeChoice reg now|reg now|]; simpl in Hstep.
  - apply parkVehicle_effect in Hstep as [_ [[-> ->]|(-> & Hc & _)]]; auto.
  - apply unparkVehicle_effect in Hstep as [Hc [(_ & -> & _)|(tk & _ & -> & _)]]; auto.
  - injection Hstep as <- <-. rewrite displayStatus_sums. auto.
Qed.

(** The ids a run issues count up from the counter, wrapping around. *)
Lemma run_ticket_ids s cs s' os :
  run s cs = Some (s', os) →
  issued_ids os
  = (λ i, int_wrap (ParkingSystem.ticketCounter s + 1 + Z.of_nat i))
      <$> seq 0 (length (issued_ids os))
  ∧ int_wrap (ParkingSystem.ticketCounter s')
    = int_wrap (ParkingSystem.ticketCounter s + Z.of_nat (length (issued_ids os))).
Proof.
  revert s os. induction cs as [|c cs IH]; intros s os.
  - intros [= <- <-]. simpl. split; [done|]. f_equal. lia.
  - intros (s1 & o & os' & Hstep & Hrun & ->)%run_cons.
    destruct (IH s1 os' Hrun) as [Hids Hctr].
    destruct (step_ticket_id s c s1 o Hstep) as [[Hnone Hc]|[-> Hc]].
    + assert (Hsame : issued_ids (o :: os') = issued_ids os')
        by (rewrite issued_ids_cons; rewrite issued_ids_cons in Hnone;
            by destruct o).
      rewrite Hsame. by rewrite <- Hc.
    + rewrite issued_ids_cons. set (n := length (issued_ids os')) in *.
      rewrite Hc in Hids, Hctr. split.
      * simpl. f_equal; [f_equal; lia|].
        rewrite Hids at 1. rewrite <- fmap_S_seq, <- list_fmap_compose.
        apply list_fmap_ext. intros i j _. simpl.
        rewrite <- Z.add_assoc, int_wrap_add. f_equal. lia.
      * rewrite Hctr, int_wrap_add. f_equal. simpl length. lia.
Qed.



(** As long as the counter stays below [INT_MAX] nothing wraps. *)
Lemma run_ticket_ids_bounded s cs s' os :
  run s cs = Some (s', os) →
  -2147483648 ≤ ParkingSystem.ticketCounter s →
  ParkingSystem.ticketCounter s + Z.of_nat (length (issued_ids os)) ≤ INT_MAX →
  issued_ids os
  = seqZ (ParkingSystem.ticketCounter s + 1) (Z.of_nat (length (issued_ids os)))
  ∧ ParkingSystem.ticketCounter s'
    = ParkingSystem.ticketCounter s + Z.of_nat (length (issued_ids os)).
Proof.
  revert s os. induction cs as [|c cs IH]; intros s os.
  - intros [= <- <-] _ _. simpl. split; [done|lia].
  - intros (s1 & o & os' & Hstep & Hrun & ->)%run_cons Hlow Hup.
    destruct (step_ticket_id s c s1 o Hstep) as [[Hnone Hc]|[-> Hc]].
    + assert (Hsame : issued_ids (o :: os') = issued_ids os')
        by (rewrite issued_ids_cons; rewrite issued_ids_cons in Hnone;
            by destruct o).
      rewrite Hsame in *. rewrite <- Hc in *. by apply IH.
    + rewrite issued_ids_cons in *. set (n := length (issued_ids os')) in *.
      simpl length in Hup. fold n in Hup.
      rewrite int_wrap_range in Hc by lia.
      destruct (IH s1 os' Hrun) as [Hids Hctr]; [lia|fold n; lia|].
      fold n in Hids, Hctr. split; [|simpl length; fold n; lia].
      rewrite int_wrap_range by lia. simpl length. fold n.
      replace (Z.of_nat (S n)) with (Z.succ (Z.of_nat n)) by lia.
      rewrite (seqZ_cons _ (Z.succ (Z.of_nat n))) by lia.
      f_equal. rewrite Hids at 1. rewrite Hc. f_equal; lia.
Qed.

(** C5, within the range of the counter: no run of the menu loop on a
    freshly constructed facility dereferences a null pointer or indexes the
    floors out of range, and the ticket ids it prints count up by one from
    1001 in the 32-bit [int] of the counter: the i-th id (from 0) is
    1001 + i wrapped around.  A run that issues at most 2147482647 tickets,
    in which the counter does not overflow, prints 1001, 1002, 1003, ... in
    this order: the first id is 1001 and each next one is exactly one
    greater. *)
Theorem ticket_ids_sequential (numFloors carsPerFloor bikesPerFloor : Z)
    (cs : list Command) :
  ∃ s os,
    run (ParkingSystem.new numFloors carsPerFloor bikesPerFloor) cs = Some (s, os)
    ∧ issued_ids os
      = (λ i, int_wrap (1001 + Z.of_nat i)) <$> seq 0 (length (issued_ids os))
    ∧ (Z.of_nat (length (issued_ids os)) ≤ 2147482647 →
       issued_ids os = seqZ 1001 (Z.of_nat (length (issued_ids os)))).
Proof.
  destruct (run_invariant _ cs (new_invariant numFloors carsPerFloor bikesPerFloor))
    as (s & os & Hrun & _).
  exists s, os. split; [done|]. split.
  - by destruct (run_ticket_ids _ _ _ _ Hrun) as [Hids _].
  - intros Hlen.
    by destruct (run_ticket_ids_bounded _ _ _ _ Hrun) as [Hids _];
      [simpl; lia|unfold INT_MAX; simpl; lia|].
Qed.

Lemma ticket_ids_sequential_witness :
  issued_ids (output_of main_facility
                [Park 1 "KA01" 0; ViewStatus; Park 2 "KA02" 10; Unpark "KA01" 20;
                 Park 1 "KA03" 30])
  = seqZ 1001 3.
Proof.
  destruct (ticket_ids_sequential 3 10 5
              [Park 1 "KA01" 0; ViewStatus; Park 2 "KA02" 10; Unpark "KA01" 20;
               Park 1 "KA03" 30]) as (s & os & Hrun & _ & Hids).
  change (ParkingSystem.new 3 10 5) with main_facility in Hrun.
  unfold output_of. rewrite Hrun.
  assert (Hlen : length (issued_ids os) = 3%nat).
  { vm_compute in Hrun. by injection Hrun as <- <-. }
  rewrite Hlen in Hids. apply Hids. done.
Defined.

(** ** Rounding to binary64 *)

Lemma rne_bounds q : Qfloor q ≤ B64.rne q ≤ Qfloor q + 1.
Proof.
  unfold B64.rne. destruct (_ ?= _)%Q; [destruct (Z.even _)|..]; lia.
Qed.

Lemma rne_mono q q' : (q <= q')%Q → B64.rne q ≤ B64.rne q'.
Proof.
  intros Hle. pose proof (Qfloor_resp_le _ _ Hle) as Hf.
  pose proof (rne_bounds q) as Hb. pose proof (rne_bounds q') as Hb'.
  destruct (decide (Qfloor q < Qfloor q')) as [Hlt|Hge]; [lia|].
  assert (Heq : Qfloor q' = Qfloor q) by lia.
  unfold B64.rne. rewrite Heq.
  destruct (q - inject_Z (Qfloor q) ?= 1 # 2)%Q eqn:E;
    destruct (q' - inject_Z (Qfloor q) ?= 1 # 2)%Q eqn:E';
    (apply Qeq_alt in E || apply Qlt_alt in E || apply Qgt_alt in E);
    (apply Qeq_alt in E' || apply Qlt_alt in E' || apply Qgt_alt in E');
    try destruct (Z.even _); first [lia | exfalso; lra].
Qed.

Lemma rne_Z z : B64.rne (inject_Z z) = z.
Proof.
  unfold B64.rne. rewrite Qfloor_Z.
  replace (inject_Z z - inject_Z z ?= 1 # 2)%Q with Lt; [done|].
  symmetry. apply (proj1 (Qlt_alt _ _)). lra.
Qed.

Lemma rne_le_Z q z : (q <= inject_Z z)%Q → B64.rne q ≤ z.
Proof. intros H%rne_mono. by rewrite rne_Z in H. Qed.

Lemma rne_ge_Z q z : (inject_Z z <= q)%Q → z ≤ B64.rne q.
Proof. intros H%rne_mono. by rewrite rne_Z in H. Qed.

Lemma pow2_pos e : (0 < 2 ^ e)%Q.
Proof. by apply Qpower_0_lt. Qed.

Lemma pow2_le a b : a ≤ b → (2 ^ a <= 2 ^ b)%Q.
Proof. intros H. apply Qpower_le_compat_l; [done|]. done. Qed.

Lemma pow2_plus a b : (2 ^ (a + b) == 2 ^ a * 2 ^ b)%Q.
Proof. apply Qpower_plus. done. Qed.

Lemma ilog2_spec q : (0 < q)%Q → (2 ^ B64.ilog2 q <= q < 2 ^ (B64.ilog2 q + 1))%Q.
Proof.
  intros Hq. unfold B64.ilog2.
  set (a := Z.log2 (Qnum q)). set (b := Z.log2 (Z.pos (Qden q))).
  assert (Hn : 0 < Qnum q) by (destruct q as [n d]; unfold Qlt in Hq; simpl in *; lia).
  pose proof (Z.log2_spec (Qnum q) Hn) as [Ha1 Ha2]. fold a in Ha1, Ha2.
  pose proof (Z.log2_spec (Z.pos (Qden q)) eq_refl) as [Hb1 Hb2]. fold b in Hb1, Hb2.
  pose proof (Z.log2_nonneg (Qnum q)) as Ha0. fold a in Ha0.
  pose proof (Z.log2_nonneg (Z.pos (Qden q))) as Hb0. fold b in Hb0.
  assert (Hqd : (q * inject_Z (Z.pos (Qden q)) == inject_Z (Qnum q))%Q).
  { destruct q as [n d]. unfold Qeq, Qmult, inject_Z. simpl. lia. }
  rewrite Zle_Qle in Ha1, Hb1. rewrite Zlt_Qlt in Ha2, Hb2.
  rewrite Zpower_Qpower in Ha1, Hb1, Ha2, Hb2 by lia.
  change (inject_Z 2) with 2%Q in *.
  replace (Z.succ a) with (a + 1) in Ha2 by lia.
  replace (Z.succ b) with (b + 1) in Hb2 by lia.
  set (d := inject_Z (Z.pos (Qden q))) in *. set (n := inject_Z (Qnum q)) in *.
  assert (Hd : (0 < d)%Q) by done.
  pose proof (pow2_pos a). pose proof (pow2_pos b). pose proof (pow2_pos (a - b)).
  pose proof (pow2_pos (a - b - 1)).
  assert (Hab : (2 ^ a == 2 ^ (a - b) * 2 ^ b)%Q)
    by (rewrite <- pow2_plus; by replace (a - b + b) with a by lia).
  assert (Hab1 : (2 ^ (a - b) == 2 ^ (a - b - 1) * 2)%Q).
  { change 2%Q with (2 ^ 1)%Q at 3. rewrite <- pow2_plus.
    by replace (a - b - 1 + 1) with (a - b) by lia. }
  assert (Hab2 : (2 ^ (a - b + 1) == 2 ^ (a - b) * 2)%Q).
  { change 2%Q with (2 ^ 1)%Q at 3. by rewrite <- pow2_plus. }
  assert (Hb2' : (2 ^ (b + 1) == 2 ^ b * 2)%Q).
  { change 2%Q with (2 ^ 1)%Q at 3. by rewrite <- pow2_plus. }
  assert (Ha2' : (2 ^ (a + 1) == 2 ^ a * 2)%Q).
  { change 2%Q with (2 ^ 1)%Q at 3. by rewrite <- pow2_plus. }
  assert (Hup : (q < 2 ^ (a - b + 1))%Q).
  { apply (Qmult_lt_r _ _ (2 ^ b)%Q); [done|].
    apply Qle_lt_trans with (q * d)%Q.
    - apply Qmult_le_l; done.
    - rewrite Hqd, Hab2. apply Qlt_le_trans with (2 ^ (a + 1))%Q; [done|].
      rewrite Ha2', Hab. lra. }
  assert (Hlow : (2 ^ (a - b - 1) < q)%Q).
  { apply (Qmult_lt_r _ _ (2 ^ (b + 1))%Q); [apply pow2_pos|].
    apply Qle_lt_trans with (q * d)%Q.
    - rewrite Hqd, Hb2'. apply Qle_trans with (2 ^ a)%Q; [|done].
      rewrite Hab, Hab1. lra.
    - apply Qmult_lt_l; done. }
  destruct (Qle_bool (2 ^ (a - b)) q) eqn:E.
  - apply Qle_bool_iff in E. split; done.
  - replace (a - b - 1 + 1) with (a - b) by lia. split; [by apply Qlt_le_weak|].
    apply Qnot_le_lt. intros Hc. apply Qle_bool_iff in Hc. congruence.
Qed.

Lemma ilog2_mono q q' : (0 < q)%Q → (q <= q')%Q → B64.ilog2 q ≤ B64.ilog2 q'.
Proof.
  intros Hq Hle.
  destruct (ilog2_spec q Hq) as [H1 _].
  destruct (ilog2_spec q') as [_ H2]; [lra|].
  destruct (decide (B64.ilog2 q ≤ B64.ilog2 q')) as [|Hgt]; [done|].
  pose proof (pow2_le (B64.ilog2 q' + 1) (B64.ilog2 q) ltac:(lia)). lra.
Qed.

Lemma round_pos_bounds q :
  (0 < q)%Q → (2 ^ B64.ilog2 q <= B64.round_pos q <= 2 ^ (B64.ilog2 q + 1))%Q.
Proof.
  intros Hq. destruct (ilog2_spec q Hq) as [H1 H2]. unfold B64.round_pos.
  set (e := B64.ilog2 q - 52). pose proof (pow2_pos e) as He.
  assert (E1 : (2 ^ B64.ilog2 q == inject_Z (2 ^ 52) * 2 ^ e)%Q).
  { rewrite Zpower_Qpower by done. change (inject_Z 2) with 2%Q.
    rewrite <- pow2_plus. unfold e. by replace (52 + (B64.ilog2 q - 52)) with (B64.ilog2 q) by lia. }
  assert (E2 : (2 ^ (B64.ilog2 q + 1) == inject_Z (2 ^ 53) * 2 ^ e)%Q).
  { rewrite Zpower_Qpower by done. change (inject_Z 2) with 2%Q.
    rewrite <- pow2_plus. unfold e.
    by replace (53 + (B64.ilog2 q - 52)) with (B64.ilog2 q + 1) by lia. }
  rewrite E1, E2. split.
  - apply Qmult_le_compat_r; [|by apply Qlt_le_weak].
    rewrite <- Zle_Qle. apply rne_ge_Z.
    apply Qle_shift_div_l; [done|]. by rewrite <- E1.
  - apply Qmult_le_compat_r; [|by apply Qlt_le_weak].
    rewrite <- Zle_Qle. apply rne_le_Z.
    apply Qle_shift_div_r; [done|]. rewrite <- E2. by apply Qlt_le_weak.
Qed.

Lemma round_pos_mono q q' :
  (0 < q)%Q → (q <= q')%Q → (B64.round_pos q <= B64.round_pos q')%Q.
Proof.
  intros Hq Hle. assert (Hq' : (0 < q')%Q) by lra.
  pose proof (ilog2_mono q q' Hq Hle) as Hl.
  destruct (decide (B64.ilog2 q = B64.ilog2 q')) as [Heq|Hne].
  - unfold B64.round_pos. rewrite Heq. set (e := B64.ilog2 q' - 52).
    pose proof (pow2_pos e) as He.
    apply Qmult_le_compat_r; [|by apply Qlt_le_weak].
    rewrite <- Zle_Qle. apply rne_mono.
    apply Qmult_le_compat_r; [done|]. apply Qlt_le_weak. by apply Qinv_lt_0_compat.
  - destruct (round_pos_bounds q Hq) as [_ H1].
    destruct (round_pos_bounds q' Hq') as [H2 _].
    pose proof (pow2_le (B64.ilog2 q + 1) (B64.ilog2 q') ltac:(lia)). lra.
Qed.

Lemma Qnum_sign q :
  match Qnum q with
  | 0 => (q == 0)%Q
  | Zpos _ => (0 < q)%Q
  | Zneg _ => (q < 0)%Q
  end.
Proof. destruct q as [[|n|n] d]; unfold Qeq, Qlt; simpl; lia. Qed.

Lemma round_nonneg q : (0 <= q)%Q → (0 <= B64.round q)%Q.
Proof.
  intros Hq. unfold B64.round. rewrite Qred_correct.
  pose proof (Qnum_sign q) as Hs. destruct (Qnum q); [lra| |lra].
  destruct (round_pos_bounds q Hs) as [H _]. pose proof (pow2_pos (B64.ilog2 q)). lra.
Qed.

Lemma round_mono q q' : (0 <= q)%Q → (q <= q')%Q → (B64.round q <= B64.round q')%Q.
Proof.
  intros Hq Hle. pose proof (Qnum_sign q) as Hs.
  destruct (Qnum q) eqn:E; [| |lra].
  - unfold B64.round at 1. rewrite E, Qred_correct. apply round_nonneg. lra.
  - pose proof (Qnum_sign q') as Hs'. unfold B64.round. rewrite E, !Qred_correct.
    destruct (Qnum q'); [lra| |lra]. by apply round_pos_mono.
Qed.


(** The rounding of the model is the rounding of the binary64 numbers of
    the kernel: the two computations of the hours agree on these counts of
    ticks, among them whole hours, whole hours and one tick, and counts
    beyond 2^53, which the conversion to a double already rounds. *)
Remark duration_of_ticks_kernel :
  Forall (λ ticks, B64.to_Q (duration_of_ticks_b64 ticks) = Some (duration_of_ticks ticks))
    [0; 1; 2; 3; 1000; 3599999999999; 3600000000000; 3600000000001;
     7199999999999; 7200000000000; 7200000000001; 32400000000001;
     36000000000000; 36000000000001; 68400000000001; 72000000000000;
     72000000000001; 9007199254740993; 9007199254740995; 29491199999999999;
     123456789012345678; 5000000000000000001; 9223372036854775807;
     -1; -3600000000001; -7200000000000; -29491199999999999;
     -9223372036854775807].
Proof. repeat (constructor; [vm_compute; reflexivity|]). constructor. Qed.

(** ** Billing *)

(** [ceil_hours] is the least number of whole hours that covers the time
    elapsed. *)
Lemma ceil_hours_spec entry exit :
  (ceil_hours entry exit - 1) * (ticks_per_second * 3600) < exit - entry
  ≤ ceil_hours entry exit * (ticks_per_second * 3600).
Proof.
  unfold ceil_hours.
  set (d := exit - entry). set (T := ticks_per_second * 3600).
  set (x := (inject_Z d / inject_Z T)%Q).
  assert (HT : (0 < inject_Z T)%Q) by done.
  assert (Hd : (inject_Z d == x * inject_Z T)%Q).
  { unfold x. field. intros H. rewrite H in HT. by apply Qlt_irrefl in HT. }
  pose proof (Qle_ceiling x) as Hle. pose proof (Qceiling_lt x) as Hlt.
  split.
  - rewrite Zlt_Qlt, inject_Z_mult, Hd.
    by apply Qmult_lt_compat_r.
  - rewrite Zle_Qle, inject_Z_mult, Hd.
    apply Qmult_le_compat_r; [done|]. by apply Qlt_le_weak.
Qed.

Lemma ceil_hours_nonneg entry exit : entry ≤ exit → 0 ≤ ceil_hours entry exit.
Proof.
  intros Hle. unfold ceil_hours.
  set (x := (inject_Z (exit - entry) / inject_Z (ticks_per_second * 3600))%Q).
  assert (Hx : (0 <= x)%Q).
  { apply Qle_shift_div_l; [done|]. rewrite Qmult_0_l.
    rewrite <- (Zle_Qle 0). lia. }
  pose proof (Qle_ceiling x) as Hc.
  rewrite (Zle_Qle 0). by eapply Qle_trans.
Qed.

Lemma ceil_hours_positive entry exit : entry < exit → 1 ≤ ceil_hours entry exit.
Proof.
  intros Hlt. unfold ceil_hours.
  set (x := (inject_Z (exit - entry) / inject_Z (ticks_per_second * 3600))%Q).
  assert (Hx : (0 < x)%Q).
  { apply Qlt_shift_div_l; [done|]. rewrite Qmult_0_l.
    rewrite <- (Zlt_Qlt 0). lia. }
  pose proof (Qle_ceiling x) as Hc.
  assert (0 < Qceiling x); [|lia].
  rewrite (Zlt_Qlt 0). by eapply Qlt_le_trans.
Qed.

Lemma std_min_Qmin a b : std_min a b = Qmin a b.
Proof.
  unfold std_min, Qmin, GenericMinMax.gmin, Qle_bool, Qcompare, Z.leb.
  by destruct (_ ?= _).
Qed.

Lemma Qmin_gt a b : (b < a)%Q → Qmin a b = b.
Proof.
  intros H. unfold Qmin, GenericMinMax.gmin.
  by rewrite (proj1 (Qgt_alt a b) H).
Qed.

Lemma Qceiling_unique x k :
  (inject_Z (k - 1) < x)%Q → (x <= inject_Z k)%Q → Qceiling x = k.
Proof.
  intros H1 H2. pose proof (Qle_ceiling x) as H3. pose proof (Qceiling_lt x) as H4.
  assert (Qceiling x - 1 < k) by (rewrite Zlt_Qlt; lra).
  assert (k - 1 < Qceiling x) by (rewrite Zlt_Qlt; lra).
  lia.
Qed.

Lemma getParkingDuration_exit now tk :
  Ticket.getParkingDuration now (Ticket.exit now tk)
  = duration_of_ticks (now - Ticket.entryTime tk).
Proof. done. Qed.

(** The hours grow with the count of ticks. *)
Lemma duration_of_ticks_mono d d' :
  0 ≤ d → d ≤ d' → (duration_of_ticks d <= duration_of_ticks d')%Q.
Proof.
  intros Hd Hle. unfold duration_of_ticks, B64.div, B64.of_int.
  assert (H0 : (0 <= inject_Z d)%Q) by (by rewrite <- (Zle_Qle 0)).
  assert (H1 : (inject_Z d <= inject_Z d')%Q) by (by rewrite <- Zle_Qle).
  pose proof (round_nonneg _ H0) as H2.
  pose proof (round_mono _ _ H0 H1) as H3.
  assert (Hdiv : ∀ x y c : Q, (0 < c)%Q → (0 <= x)%Q → (x <= y)%Q →
                 (0 <= x / c)%Q ∧ (x / c <= y / c)%Q).
  { intros x y c Hc Hx Hxy. split.
    - apply Qle_shift_div_l; [done|]. lra.
    - apply Qmult_le_compat_r; [done|]. apply Qlt_le_weak. by apply Qinv_lt_0_compat. }
  destruct (Hdiv _ _ (inject_Z ticks_per_second) eq_refl H2 H3) as [H4 H5].
  pose proof (round_nonneg _ H4) as H6.
  pose proof (round_mono _ _ H4 H5) as H7.
  destruct (Hdiv _ _ 3600%Q eq_refl H6 H7) as [H8 H9].
  by apply round_mono.
Qed.

(** Up to 21 hours, the double computed for a whole number of hours is that
    number, and one tick more already gives a double above it. *)
Lemma duration_of_ticks_hours k :
  1 ≤ k ≤ 21 →
  (inject_Z (k - 1) < duration_of_ticks ((k - 1) * 3600000000000 + 1))%Q
  ∧ (duration_of_ticks (k * 3600000000000) <= inject_Z k)%Q.
Proof.
  intros Hk.
  assert (H : In k [1; 2; 3; 4; 5; 6; 7; 8; 9; 10; 11; 12; 13; 14; 15; 16; 17;
                    18; 19; 20; 21]) by (simpl; lia).
  simpl in H.
  repeat (destruct H as [<-|H]; [split; vm_compute; done|]). done.
Qed.

(** For a clock that has not been set back, the hours the billing code
    rounds up to are the exact ones up to 20, and above 20 beyond. *)
Lemma hours_exact entry exit :
  entry ≤ exit →
  (ceil_hours entry exit ≤ 20 →
   Qceiling (duration_of_ticks (exit - entry)) = ceil_hours entry exit)
  ∧ (20 < ceil_hours entry exit → 20 < Qceiling (duration_of_ticks (exit - entry))).
Proof.
  intros Hle. pose proof (ceil_hours_spec entry exit) as [Hs1 Hs2].
  pose proof (ceil_hours_nonneg entry exit Hle) as H0.
  set (k := ceil_hours entry exit) in *. set (d := exit - entry) in *.
  unfold ticks_per_second in Hs1, Hs2. split; intros Hk.
  - destruct (decide (k = 0)) as [Hz|Hz].
    + replace d with 0 by lia. by rewrite Hz.
    + destruct (duration_of_ticks_hours k) as [H1 H2]; [lia|].
      apply Qceiling_unique.
      * eapply Qlt_le_trans; [exact H1|]. apply duration_of_ticks_mono; lia.
      * eapply Qle_trans; [|exact H2]. apply duration_of_ticks_mono; lia.
  - destruct (duration_of_ticks_hours 21) as [H1 _]; [lia|].
    rewrite Zlt_Qlt. eapply Qlt_le_trans; [|apply Qle_ceiling].
    eapply Qlt_le_trans; [exact H1|]. apply duration_of_ticks_mono; lia.
Qed.

(** The charge as the billing code computes it, for a clock that has not
    been set back: the hours rounded up, times the car rate when the ticket
    says CAR and the bike rate otherwise, capped at the daily maximum. *)
Lemma charge_of_formula now tk :
  Ticket.entryTime tk ≤ now →
  ParkingSystem.charge_of now tk
  = Qmin (inject_Z (ceil_hours (Ticket.entryTime tk) now)
          * (if bool_decide (Ticket.vehicleType tk = CAR)
             then CAR_HOURLY_RATE else BIKE_HOURLY_RATE)) DAILY_MAX.
Proof.
  intros Hle. unfold ParkingSystem.charge_of.
  rewrite std_min_Qmin, getParkingDuration_exit.
  change (Ticket.getVehicleType (Ticket.exit now tk)) with (Ticket.vehicleType tk).
  destruct (hours_exact _ _ Hle) as [H1 H2].
  destruct (decide (ceil_hours (Ticket.entryTime tk) now ≤ 20)) as [Hk|Hk].
  - by rewrite H1.
  - assert (Hbig : ∀ h, 20 < h →
      (DAILY_MAX < inject_Z h * (if bool_decide (Ticket.vehicleType tk = CAR)
                                 then CAR_HOURLY_RATE else BIKE_HOURLY_RATE))%Q).
    { intros h Hh. rewrite Zlt_Qlt in Hh. change (inject_Z 20) with 20%Q in Hh.
      unfold DAILY_MAX, CAR_HOURLY_RATE, BIKE_HOURLY_RATE. case_bool_decide; lra. }
    rewrite !Qmin_gt; [done|apply Hbig; lia|apply Hbig, H2; lia].
Qed.



(** The shortcut of the billing code tells cars from everything else: a
    ticket whose stored type is ELECTRIC would be billed at the bike rate,
    not at the rate of [ElectricCar::getHourlyRate].  No such ticket is ever
    issued: the menu builds cars and bikes only. *)
Remark charge_of_electric_ticket :
  let tk := Ticket.new 0 1001 "EV" ELECTRIC 1 1 in
  ParkingSystem.charge_of 1 tk = 10%Q
  ∧ (Vehicle.getHourlyRate (Vehicle.ElectricCar "EV") == 16)%Q.
Proof. split; reflexivity. Qed.

(** A clock that reads earlier at the exit than at the entry gives a
    negative charge, which the daily maximum does not cap: here the exit is
    two hours before the entry. *)
Remark charge_of_clock_set_back :
  let tk := Ticket.new 7200000000000 1001 "KA01" CAR 1 1 in
  ParkingSystem.charge_of 0 tk = (-40)%Q.
Proof. reflexivity. Qed.





(** ** Revenue *)









Lemma run_length s cs s' os : run s cs = Some (s', os) → length os = length cs.
Proof.
  revert s os. induction cs as [|c cs IH]; intros s os.
  - by intros [= <- <-].
  - intros (s1 & o & os' & _ & Hrun & ->)%run_cons. simpl. by rewrite (IH s1 os').
Qed.






(** ** Allocation *)

(** C2: in every state the program reaches, parking a vehicle for whose
    type some floor has a free slot succeeds; the ticket names a slot that
    was free and allowed the type, that slot now holds the vehicle, and
    every other free slot of the type is on a floor with a greater number or
    on the same floor with a greater or equal id. *)
Theorem park_first_fit (s : ParkingSystem.t) (typeChoice : Z) (reg : string)
    (now : time_point) :
  let vehicle := ParkingSystem.make_vehicle typeChoice reg in
  reachable s →
  has_free_slot (Vehicle.type vehicle) s = true →
  ∃ s' tk f sl,
    ParkingSystem.parkVehicle typeChoice reg now s
    = Some (s', VehicleParked (Ticket.id tk))
    ∧ ParkingSystem.activeTickets s' !! reg = Some tk
    ∧ Ticket.floor tk = ParkingFloor.floorNumber f
    ∧ Ticket.slotId tk = ParkingSlot.id sl
    ∧ f ∈ ParkingSystem.floors s ∧ sl ∈ ParkingFloor.slots f
    ∧ ParkingSlot.isCompatible (Vehicle.type vehicle) sl = true
    ∧ slot_of s' (ParkingFloor.floorNumber f) (ParkingSlot.id sl)
              (ParkingSlot.occupy now vehicle sl)
    ∧ ∀ f' sl',
        f' ∈ ParkingSystem.floors s → sl' ∈ ParkingFloor.slots f' →
        ParkingSlot.isCompatible (Vehicle.type vehicle) sl' = true →
        ParkingFloor.floorNumber f < ParkingFloor.floorNumber f'
        ∨ (ParkingFloor.floorNumber f' = ParkingFloor.floorNumber f
           ∧ ParkingSlot.id sl ≤ ParkingSlot.id sl').
Proof.
  intros vehicle Hinv%reachable_invariant Hfree.
  destruct (parkVehicle_cases typeChoice reg now s (invariant_ids s Hinv))
    as [[_ Hfull]|(k & f & i & sl & Hk & Hbefore & Hfind & Hrun)].
  { fold vehicle in Hfull. congruence. }
  fold vehicle in Hbefore, Hfind.
  pose proof (park_state_invariant typeChoice reg now s k f i sl Hinv Hk Hfind) as Hinv'.
  pose proof Hfind as (Hi & Hc & Hmin)%findAvailableSlot_Some.
  assert (Hat : slot_at (ParkingSystem.floors s) k i = Some sl)
    by (apply slot_at_floor; eauto).
  destruct (inv_slot s Hinv k i sl Hat) as (Hid & Hfl & _).
  destruct (inv_floor s Hinv k f Hk) as [Hnum _].
  exists (park_state typeChoice reg now k i f sl s),
    (Ticket.new now (int_wrap (ParkingSystem.ticketCounter s + 1)) reg
       (Vehicle.type vehicle) (ParkingSlot.floor sl) (ParkingSlot.id sl)), f, sl.
  split; [exact Hrun|]. split; [apply lookup_insert_eq|]. simpl.
  split; [congruence|]. split; [done|].
  split; [by eapply list_elem_of_lookup_2|].
  split; [by eapply list_elem_of_lookup_2|]. split; [done|]. split.
  - rewrite Hnum, Hid. apply (slot_at_slot_of _ k i); [done|].
    rewrite (park_state_slot_at _ _ _ _ _ _ _ _ _ _ Hk Hi).
    by rewrite decide_True.
  - intros f' sl' (k' & Hk')%list_elem_of_lookup_1 (j' & Hj')%list_elem_of_lookup_1 Hc'.
    destruct (inv_floor s Hinv k' f' Hk') as [Hnum' _].
    assert (Hat' : slot_at (ParkingSystem.floors s) k' j' = Some sl')
      by (apply slot_at_floor; eauto).
    destruct (inv_slot s Hinv k' j' sl' Hat') as (Hid' & _ & _).
    destruct (decide (k' < k)%nat) as [Hlt|Hge].
    { specialize (Hbefore k' f' Hlt Hk'). rewrite findAvailableSlot_None in Hbefore.
      rewrite (Hbefore sl') in Hc'; [done|]. by eapply list_elem_of_lookup_2. }
    destruct (decide (k' = k)) as [->|Hne]; [|left; lia].
    right. split; [lia|]. assert (f' = f) as -> by congruence.
    destruct (decide (j' < i)%nat) as [Hlt|Hge']; [|lia].
    rewrite (Hmin j' sl' Hj' Hlt) in Hc'. done.
Qed.

Lemma park_first_fit_witness :
  has_free_slot CAR demo_parked = true
  ∧ ∃ s' tk f sl,
      ParkingSystem.parkVehicle 1 "KA03" 20 demo_parked
      = Some (s', VehicleParked (Ticket.id tk))
      ∧ ParkingSystem.activeTickets s' !! "KA03" = Some tk
      ∧ Ticket.floor tk = ParkingFloor.floorNumber f
      ∧ Ticket.slotId tk = ParkingSlot.id sl
      ∧ f ∈ ParkingSystem.floors demo_parked ∧ sl ∈ ParkingFloor.slots f
      ∧ ParkingSlot.isCompatible CAR sl = true
      ∧ slot_of s' (ParkingFloor.floorNumber f) (ParkingSlot.id sl)
                (ParkingSlot.occupy 20 (Vehicle.Car "KA03") sl)
      ∧ ∀ f' sl',
          f' ∈ ParkingSystem.floors demo_parked → sl' ∈ ParkingFloor.slots f' →
          ParkingSlot.isCompatible CAR sl' = true →
          ParkingFloor.floorNumber f < ParkingFloor.floorNumber f'
          ∨ (ParkingFloor.floorNumber f' = ParkingFloor.floorNumber f
             ∧ ParkingSlot.id sl ≤ ParkingSlot.id sl').
Proof.
  split; [reflexivity|].
  apply (park_first_fit demo_parked 1 "KA03" 20).
  - exact demo_parked_reachable.
  - reflexivity.
Defined.


(** C9: in every state the program reaches in which a registration has an
    active ticket, a further successful park under the same registration
    puts the new ticket in the place of the old one in the active-ticket
    map; the new ticket names another slot, the slot of the old ticket is
    still occupied, and no active ticket names it. *)
Theorem repark_orphans_slot (s s' : ParkingSystem.t) (reg : string)
    (old : Ticket.t) (typeChoice : Z) (now : time_point) (ticketId : Z) :
  reachable s →
  ParkingSystem.activeTickets s !! reg = Some old →
  ParkingSystem.parkVehicle typeChoice reg now s = Some (s', VehicleParked ticketId) →
  (∃ tk, ParkingSystem.activeTickets s' !! reg = Some tk
         ∧ Ticket.id tk = ticketId ∧ Ticket.entryTime tk = now
         ∧ ParkingSystem.activeTickets s'
           = <[reg := tk]> (ParkingSystem.activeTickets s))
  ∧ (∃ sl, slot_of s' (Ticket.floor old) (Ticket.slotId old) sl)
  ∧ (∀ sl, slot_of s' (Ticket.floor old) (Ticket.slotId old) sl →
           ParkingSlot.status sl = OCCUPIED)
  ∧ (∀ r tk, ParkingSystem.activeTickets s' !! r = Some tk →
             ¬ (Ticket.floor tk = Ticket.floor old
                ∧ Ticket.slotId tk = Ticket.slotId old)).
Proof.
  intros Hinv%reachable_invariant Hold Hpark.
  destruct (parkVehicle_cases typeChoice reg now s (invariant_ids s Hinv))
    as [[Hrun _]|(k & f & i & sl & Hk & _ & Hfind & Hrun)]; [congruence|].
  rewrite Hrun in Hpark. injection Hpark as <- <-.
  pose proof (park_state_invariant typeChoice reg now s k f i sl Hinv Hk Hfind) as Hinv'.
  pose proof Hfind as (Hi & [Hfree _]%isCompatible_true & _)%findAvailableSlot_Some.
  assert (Hat : slot_at (ParkingSystem.floors s) k i = Some sl)
    by (apply slot_at_floor; eauto).
  destruct (inv_slot s Hinv k i sl Hat) as (Hid & Hfl & _).
  destruct (inv_ticket s Hinv reg old Hold)
    as (k0 & j0 & sl0 & v0 & Hf0 & Hs0 & Hat0 & Hcur0 & _).
  destruct (inv_slot s Hinv k0 j0 sl0 Hat0) as (_ & _ & Hcons0).
  unfold slot_consistent in Hcons0. rewrite Hcur0 in Hcons0.
  destruct Hcons0 as [Hocc0 _].
  assert (Hne : ¬ (k0 = k ∧ j0 = i)).
  { intros [-> ->]. rewrite Hat in Hat0. injection Hat0 as <-. congruence. }
  assert (Hat0' : slot_at (ParkingSystem.floors
                    (park_state typeChoice reg now k i f sl s)) k0 j0 = Some sl0).
  { rewrite (park_state_slot_at _ _ _ _ _ _ _ _ _ _ Hk Hi).
    by rewrite decide_False. }
  assert (Hof : slot_of (park_state typeChoice reg now k i f sl s)
                  (Ticket.floor old) (Ticket.slotId old) sl0).
  { rewrite Hf0, Hs0. by apply slot_at_slot_of. }
  split.
  { eexists. split; [apply lookup_insert_eq|]. done. }
  split; [by exists sl0|]. split.
  { intros sl1 Hof1. by rewrite (slot_of_unique _ _ _ sl1 sl0 Hinv' Hof1 Hof). }
  intros r tk Htk [Ef Es]. simpl in Htk.
  destruct (decide (r = reg)) as [->|Hr].
  - rewrite lookup_insert_eq in Htk. injection Htk as <-. simpl in *.
    apply Hne. lia.
  - rewrite lookup_insert_ne in Htk by done.
    apply Hr. apply (inv_inj s Hinv r reg tk old); done.
Qed.

Lemma repark_orphans_slot_witness :
  (∃ tk, ParkingSystem.activeTickets
           (final_state demo_parked [Park 1 "KA01" 20]) !! "KA01" = Some tk
         ∧ Ticket.id tk = 1003 ∧ Ticket.entryTime tk = 20
         ∧ ParkingSystem.activeTickets (final_state demo_parked [Park 1 "KA01" 20])
           = <["KA01" := tk]> (ParkingSystem.activeTickets demo_parked))
  ∧ (∃ sl, slot_of (final_state demo_parked [Park 1 "KA01" 20]) 1 1 sl).
Proof.
  destruct (repark_orphans_slot demo_parked
              (final_state demo_parked [Park 1 "KA01" 20])
              "KA01" demo_ticket 1 20 1003)
    as (Hnew & Hslot & _); [exact demo_parked_reachable|reflexivity..|].
  split; [exact Hnew|exact Hslot].
Defined.

(** ** The scenarios of the specification *)

(** Three floors of ten car slots and five bike slots: 45 slots, none
    occupied. *)
Example main_facility_status :
  ParkingSystem.displayStatus main_facility = Status 45 0 45.
Proof. reflexivity. Qed.

(** Parking a car in the fresh facility gives ticket 1001 for slot 1 of
    floor 1; unparking it within the first hour charges 20 and frees the
    slot. *)
Example park_then_unpark :
  output_of main_facility
    [Park 1 "ABC-1" 0; ViewStatus; Unpark "ABC-1" 1; ViewStatus]
  = [VehicleParked 1001; Status 45 1 44; ParkingCharge 20; Status 45 0 45]
  ∧ ParkingSystem.activeTickets (final_state main_facility [Park 1 "ABC-1" 0]) !! "ABC-1"
    = Some (Ticket.new 0 1001 "ABC-1" CAR 1 1)
  ∧ ParkingSystem.totalRevenue
      (final_state main_facility [Park 1 "ABC-1" 0; Unpark "ABC-1" 1]) = 20%Q.
Proof. repeat split; reflexivity. Qed.

(** The eleventh car goes to slot 1 of floor 2. *)
Example eleventh_car :
  ParkingSystem.activeTickets
    (final_state main_facility
       ((λ reg, Park 1 reg 0)
          <$> ["A"; "B"; "C"; "D"; "E"; "F"; "G"; "H"; "I"; "J"; "K"]))
    !! "K"
  = Some (Ticket.new 0 1011 "K" CAR 2 1).
Proof. reflexivity. Qed.

(** * Further properties of the code *)

(** ** The constructors *)

(** X1: a floor built for [c] car slots and [b] bike slots (negative counts
    build none) has that many slots, numbered 1, 2, ... in vector order, the
    car slots first; every slot is free and empty and carries the number of
    the floor; the counter of occupied slots is 0. *)
Theorem floor_constructor_layout (floorNum carSlots bikeSlots : Z) :
  let f := ParkingFloor.new floorNum carSlots bikeSlots in
  ParkingFloor.floorNumber f = floorNum
  ∧ ParkingFloor.occupiedSlots f = 0
  ∧ Z.of_nat (length (ParkingFloor.slots f)) = Z.max 0 carSlots + Z.max 0 bikeSlots
  ∧ ∀ j sl, ParkingFloor.slots f !! j = Some sl →
      sl = ParkingSlot.mk (Z.of_nat j + 1) floorNum FREE
             (if bool_decide (Z.of_nat j < carSlots) then CAR else BIKE) None 0.
Proof.
  intros f. destruct (new_floor_spec floorNum carSlots bikeSlots)
    as (Hnum & Hocc & Hlen & Hslots).
  do 2 (split; [done|]). split; [unfold f; rewrite Hlen; lia|].
  intros j sl Hj. rewrite (Hslots j sl Hj). unfold ParkingSlot.new. f_equal.
  case_decide; case_bool_decide; try done; lia.
Qed.

Lemma sumZ_replicate_like {A} (g : A → Z) (l : list A) (z : Z) :
  (∀ x, x ∈ l → g x = z) → sumZ (g <$> l) = Z.of_nat (length l) * z.
Proof.
  induction l as [|x l IH]; intros Hall; [done|].
  rewrite fmap_cons. simpl. change (foldr Z.add 0 (g <$> l)) with (sumZ (g <$> l)).
  rewrite IH by (intros y Hy; apply Hall; by right).
  rewrite (Hall x) by left. lia.
Qed.

Lemma new_total_slots n c b :
  total_slots (ParkingSystem.new n c b) = capacity n c b.
Proof.
  unfold total_slots, capacity. simpl. rewrite <- list_fmap_compose.
  rewrite (sumZ_replicate_like _ _ (Z.max 0 c + Z.max 0 b)).
  - rewrite length_seqZ. lia.
  - intros i _. simpl.
    destruct (new_floor_spec i c b) as (_ & _ & Hlen & _). rewrite Hlen. lia.
Qed.

Lemma new_total_occupied n c b : total_occupied (ParkingSystem.new n c b) = 0.
Proof.
  unfold total_occupied. rewrite (sumZ_replicate_like _ _ 0); [lia|].
  intros f (k & Hk)%list_elem_of_lookup_1. apply new_floors_lookup in Hk as ->.
  apply occupied_count_zero. intros j sl Hj.
  destruct (new_floor_spec (Z.of_nat k + 1) c b) as (_ & _ & _ & Hslots).
  by rewrite (Hslots j sl Hj).
Qed.

(** X2: the facility built for [n] floors has [max n 0] floors numbered
    1, 2, ..., each built with the same slot counts, no active ticket, ticket
    counter 1000 and no revenue; its status report shows the whole capacity
    available. *)
Theorem system_constructor (numFloors carsPerFloor bikesPerFloor : Z) :
  let s := ParkingSystem.new numFloors carsPerFloor bikesPerFloor in
  Z.of_nat (length (ParkingSystem.floors s)) = Z.max 0 numFloors
  ∧ (∀ k f, ParkingSystem.floors s !! k = Some f →
       f = ParkingFloor.new (Z.of_nat k + 1) carsPerFloor bikesPerFloor)
  ∧ ParkingSystem.activeTickets s = ∅
  ∧ ParkingSystem.ticketCounter s = 1000
  ∧ ParkingSystem.totalRevenue s = 0%Q
  ∧ ParkingSystem.displayStatus s
    = Status (capacity numFloors carsPerFloor bikesPerFloor) 0
             (capacity numFloors carsPerFloor bikesPerFloor).
Proof.
  intros s. split; [unfold s; simpl; rewrite length_fmap, length_seqZ; lia|].
  split; [intros k f; apply new_floors_lookup|]. do 3 (split; [done|]).
  rewrite displayStatus_sums. unfold s. rewrite new_total_slots.
  replace (sumZ _) with 0; [f_equal; lia|].
  symmetry. rewrite (sumZ_replicate_like _ _ 0); [lia|].
  intros f (k & Hk)%list_elem_of_lookup_1. apply new_floors_lookup in Hk as ->.
  by destruct (new_floor_spec (Z.of_nat k + 1) carsPerFloor bikesPerFloor)
    as (_ & Hocc & _).
Qed.

(** ** The layout never changes *)

Lemma occupy_key now v sl : slot_key (ParkingSlot.occupy now v sl) = slot_key sl.
Proof. done. Qed.

Lemma vacate_key sl : slot_key (ParkingSlot.vacate sl).2 = slot_key sl.
Proof. done. Qed.

Lemma parkVehicle_slots_layout now slotId vehicle ss ok ss' :
  ParkingFloor.parkVehicle_slots now slotId vehicle ss = Some (ok, ss') →
  slot_key <$> ss' = slot_key <$> ss.
Proof.
  revert vehicle ok ss'. induction ss as [|s rest IH]; intros vehicle ok ss'; simpl.
  { by intros [= <- <-]. }
  case_bool_decide.
  - destruct vehicle as [v|]; simpl; [|done].
    destruct (ParkingSlot.isCompatible _ s); simpl.
    + by intros [= <- <-].
    + destruct (ParkingFloor.parkVehicle_slots now slotId None rest)
        as [[r rest']|] eqn:E; simpl; [|done].
      intros [= <- <-]. rewrite !fmap_cons. f_equal. by eapply IH.
  - destruct (ParkingFloor.parkVehicle_slots now slotId vehicle rest)
      as [[r rest']|] eqn:E; simpl; [|done].
    intros [= <- <-]. rewrite !fmap_cons. f_equal. by eapply IH.
Qed.

Lemma vacateSlot_slots_layout slotId ss v ss' :
  ParkingFloor.vacateSlot_slots slotId ss = Some (v, ss') →
  slot_key <$> ss' = slot_key <$> ss.
Proof.
  revert v ss'. induction ss as [|s rest IH]; intros v ss'; simpl; [done|].
  destruct (_ && _).
  - by intros [= <- <-].
  - destruct (ParkingFloor.vacateSlot_slots slotId rest) as [[v' rest']|] eqn:E;
      simpl; [|done].
    intros [= <- <-]. rewrite !fmap_cons. f_equal. by eapply IH.
Qed.

Lemma floor_parkVehicle_layout now slotId vehicle f ok f' :
  ParkingFloor.parkVehicle now slotId vehicle f = Some (ok, f') →
  floor_layout f' = floor_layout f.
Proof.
  unfold ParkingFloor.parkVehicle.
  destruct (ParkingFloor.parkVehicle_slots _ _ _ _) as [[ok' ss]|] eqn:E; simpl; [|done].
  intros [= <- <-]. unfold floor_layout. simpl. f_equal.
  by eapply parkVehicle_slots_layout.
Qed.

Lemma floor_vacateSlot_layout slotId f :
  floor_layout (ParkingFloor.vacateSlot slotId f).2 = floor_layout f.
Proof.
  unfold ParkingFloor.vacateSlot.
  destruct (ParkingFloor.vacateSlot_slots _ _) as [[v ss]|] eqn:E; [|done].
  unfold floor_layout. simpl. f_equal. by eapply vacateSlot_slots_layout.
Qed.

Lemma parkVehicle_floors_layout now vehicle fs fs' sl :
  ParkingSystem.parkVehicle_floors now vehicle fs = Some (Some (fs', sl)) →
  floor_layout <$> fs' = floor_layout <$> fs.
Proof.
  revert vehicle fs' sl. induction fs as [|f rest IH]; intros vehicle fs' sl; simpl;
    [done|].
  destruct vehicle as [v|]; simpl; [|done].
  destruct (ParkingFloor.findAvailableSlot _ f) as [[i slot]|].
  - destruct (ParkingFloor.parkVehicle _ _ _ f) as [[ok f']|] eqn:E; simpl; [|done].
    apply floor_parkVehicle_layout in E. destruct ok.
    + destruct (ParkingFloor.slots f' !! i); simpl; [|done].
      intros [= <- <-]. rewrite !fmap_cons. by f_equal.
    + destruct (ParkingSystem.parkVehicle_floors now None rest)
        as [[[rest' sl']|]|] eqn:E'; simpl; [|done..].
      intros [= <- <-]. rewrite !fmap_cons. f_equal; [done|]. by eapply IH.
  - destruct (ParkingSystem.parkVehicle_floors now (Some v) rest)
      as [[[rest' sl']|]|] eqn:E'; simpl; [|done..].
    intros [= <- <-]. rewrite !fmap_cons. f_equal. by eapply IH.
Qed.

Lemma step_layout s c s' o : step s c = Some (s', o) → layout s' = layout s.
Proof.
  destruct c as [typeChoice reg now|reg now|]; simpl.
  - unfold ParkingSystem.parkVehicle.
    destruct (ParkingSystem.parkVehicle_floors _ _ _) as [[[fs sl]|]|] eqn:E;
      simpl; [| |done].
    + destruct (ParkingSlot.getCurrentVehicle sl); simpl; [|done].
      intros [= <- <-]. unfold layout. simpl. by eapply parkVehicle_floors_layout.
    + by intros [= <- <-].
  - unfold ParkingSystem.unparkVehicle.
    destruct (ParkingSystem.activeTickets s !! reg) as [tk|]; [|by intros [= <- <-]].
    unfold ParkingSystem.vacate_at. case_bool_decide; [|done].
    destruct (ParkingSystem.floors s !! _) as [f|] eqn:E; simpl; [|done].
    intros [= <- <-]. unfold layout. simpl.
    rewrite list_fmap_insert, floor_vacateSlot_layout.
    apply list_insert_id. by rewrite list_lookup_fmap, E.
  - by intros [= <- <-].
Qed.

Lemma run_layout s cs s' os : run s cs = Some (s', os) → layout s' = layout s.
Proof.
  revert s os. induction cs as [|c cs IH]; intros s os.
  - by intros [= <- <-].
  - intros (s1 & o & os' & Hstep & Hrun & ->)%run_cons.
    rewrite (IH s1 os' Hrun). by eapply step_layout.
Qed.

(** X3: no operation changes the layout of the facility: after any run
    that is defined, from any state, the floors have the numbers they had
    and every slot has the id, the floor and the allowed type it had; no slot
    is added or removed. *)
Theorem layout_never_changes (s s' : ParkingSystem.t) (cs : list Command)
    (os : list Output) :
  run s cs = Some (s', os) → layout s' = layout s.
Proof. apply run_layout. Qed.

Lemma layout_never_changes_witness :
  layout demo_parked = layout main_facility.
Proof.
  apply (layout_never_changes main_facility demo_parked
           [Park 1 "KA01" 0; Park 2 "KA02" 10]
           [VehicleParked 1001; VehicleParked 1002]).
  reflexivity.
Defined.

Lemma layout_total_slots s s' : layout s = layout s' → total_slots s = total_slots s'.
Proof.
  unfold layout, total_slots. intros Heq.
  assert (H : ∀ fs : list ParkingFloor.t,
             (λ f, Z.of_nat (length (ParkingFloor.slots f))) <$> fs
             = (λ p : Z * list (Z * Z * VehicleType), Z.of_nat (length p.2))
                 <$> (floor_layout <$> fs)).
  { intros fs. rewrite <- list_fmap_compose. apply list_fmap_ext.
    intros i f _. simpl. by rewrite length_fmap. }
  by rewrite !H, Heq.
Qed.

Lemma sumZ_cons x l : sumZ (x :: l) = x + sumZ l.
Proof. done. Qed.

Lemma total_occupied_bounds s : 0 ≤ total_occupied s ≤ total_slots s.
Proof.
  unfold total_occupied, total_slots.
  induction (ParkingSystem.floors s) as [|f fs IH]; [done|].
  rewrite !fmap_cons, !sumZ_cons.
  pose proof (occupied_count_bounds (ParkingFloor.slots f)). lia.
Qed.

Lemma run_status_lines s cs s' os :
  invariant s → run s cs = Some (s', os) →
  Forall (status_line_ok (total_slots s)) os.
Proof.
  revert s os. induction cs as [|c cs IH]; intros s os Hinv.
  - intros [= <- <-]. constructor.
  - intros (s1 & o & os' & Hstep & Hrun & ->)%run_cons.
    destruct (step_invariant s c Hinv) as (s1' & o' & Hstep' & Hinv1).
    rewrite Hstep in Hstep'. injection Hstep' as <- <-.
    pose proof (layout_total_slots _ _ (step_layout _ _ _ _ Hstep)) as Htot.
    constructor; [|rewrite <- Htot; by apply (IH s1)].
    destruct c as [typeChoice reg now|reg now|]; simpl in Hstep.
    + by apply parkVehicle_effect in Hstep as [_ [[-> _]|[-> _]]].
    + by apply unparkVehicle_effect in Hstep as [_ [(_ & -> & _)|(tk & _ & -> & _)]].
    + injection Hstep as <- <-. rewrite displayStatus_sums. simpl.
      replace (sumZ (ParkingFloor.occupiedSlots <$> ParkingSystem.floors s))
        with (total_occupied s).
      * split; [done|]. split; [apply total_occupied_bounds|done].
      * unfold total_occupied. f_equal. apply list_fmap_ext.
        intros k f Hk. symmetry. by apply (inv_floor s Hinv k f).
Qed.

(** X4: in every run on a freshly constructed facility, every status line
    reports the capacity of the facility as the total, an occupied count
    between 0 and the capacity, and the difference as available: the
    available count is never negative. *)
Theorem status_within_capacity (numFloors carsPerFloor bikesPerFloor : Z)
    (cs : list Command) :
  ∃ s os,
    run (ParkingSystem.new numFloors carsPerFloor bikesPerFloor) cs = Some (s, os)
    ∧ Forall (status_line_ok (capacity numFloors carsPerFloor bikesPerFloor)) os.
Proof.
  destruct (run_invariant _ cs (new_invariant numFloors carsPerFloor bikesPerFloor))
    as (s & os & Hrun & _).
  exists s, os. split; [done|]. rewrite <- new_total_slots.
  by apply (run_status_lines _ cs s); [apply new_invariant|].
Qed.

(** ** Active tickets *)

(** X5: in every state the program reaches, the slot an active ticket
    names exists, is occupied, and holds a vehicle with the registration and
    the type of the ticket; two registrations never hold tickets for the
    same slot. *)
Theorem tickets_name_their_own_slots (s : ParkingSystem.t) (r1 r2 : string)
    (t1 t2 : Ticket.t) :
  reachable s →
  ParkingSystem.activeTickets s !! r1 = Some t1 →
  ParkingSystem.activeTickets s !! r2 = Some t2 →
  (∃ sl v, slot_of s (Ticket.floor t1) (Ticket.slotId t1) sl
           ∧ ParkingSlot.status sl = OCCUPIED
           ∧ ParkingSlot.currentVehicle sl = Some v
           ∧ Vehicle.registration v = r1
           ∧ Vehicle.type v = Ticket.vehicleType t1)
  ∧ (Ticket.floor t1 = Ticket.floor t2 → Ticket.slotId t1 = Ticket.slotId t2 →
     r1 = r2).
Proof.
  intros Hinv%reachable_invariant H1 H2. split.
  - destruct (inv_ticket s Hinv r1 t1 H1)
      as (k & j & sl & v & Hf & Hs & Hat & Hcur & Hty & Hreg & _).
    exists sl, v. split; [rewrite Hf, Hs; by apply slot_at_slot_of|].
    destruct (inv_slot s Hinv k j sl Hat) as (_ & _ & Hcons).
    unfold slot_consistent in Hcons. rewrite Hcur in Hcons.
    destruct Hcons as [Hocc _]. done.
  - by apply (inv_inj s Hinv r1 r2 t1 t2).
Qed.

Lemma tickets_name_their_own_slots_witness :
  (∃ sl v, slot_of demo_parked 1 1 sl
           ∧ ParkingSlot.status sl = OCCUPIED
           ∧ ParkingSlot.currentVehicle sl = Some v
           ∧ Vehicle.registration v = "KA01"
           ∧ Vehicle.type v = CAR).
Proof.
  destruct (tickets_name_their_own_slots demo_parked "KA01" "KA01"
              demo_ticket demo_ticket demo_parked_reachable) as [H _];
    [reflexivity..|exact H].
Defined.

Lemma step_ticket_ids_ok s c s' o :
  ticket_ids_ok s → step s c = Some (s', o) →
  ParkingSystem.ticketCounter s + Z.of_nat (length (issued_ids [o])) ≤ INT_MAX →
  ticket_ids_ok s'
  ∧ ParkingSystem.ticketCounter s'
    = ParkingSystem.ticketCounter s + Z.of_nat (length (issued_ids [o])).
Proof.
  intros (Hlow & Hrange & Hinj) Hstep Hup.
  destruct c as [typeChoice reg now|reg now|]; simpl in Hstep.
  - apply parkVehicle_effect in Hstep
      as [_ [[-> ->]|(-> & Hctr & tk & Htks & Hid & _)]]; [split; [done|simpl; lia]|].
    simpl in Hup. unfold INT_MAX in Hup.
    rewrite int_wrap_range in Hctr, Hid by (unfold INT_MAX; lia).
    split; [|simpl; lia].
    unfold ticket_ids_ok. rewrite Htks, Hctr. split; [lia|]. split.
    + intros r t. destruct (decide (r = reg)) as [->|Hne].
      * rewrite lookup_insert_eq. intros [= <-]. lia.
      * rewrite lookup_insert_ne by done. intros Ht.
        specialize (Hrange r t Ht). lia.
    + intros r1 r2 t1 t2.
      destruct (decide (r1 = reg)) as [->|Hne1];
        destruct (decide (r2 = reg)) as [->|Hne2]; [done|..].
      * rewrite lookup_insert_eq, lookup_insert_ne by done.
        intros [= <-] Ht2 Heq. specialize (Hrange r2 t2 Ht2). lia.
      * rewrite lookup_insert_eq, lookup_insert_ne by done.
        intros Ht1 [= <-] Heq. specialize (Hrange r1 t1 Ht1). lia.
      * rewrite !lookup_insert_ne by done. apply Hinj.
  - apply unparkVehicle_effect in Hstep
      as [Hctr [(_ & -> & ->)|(tk & _ & -> & _ & Htks)]]; [split; [done|simpl; lia]|].
    split; [|simpl; lia].
    unfold ticket_ids_ok. rewrite Htks, Hctr. split; [done|]. split.
    + intros r t [_ Ht]%lookup_delete_Some. by apply (Hrange r t).
    + intros r1 r2 t1 t2 [_ Ht1]%lookup_delete_Some [_ Ht2]%lookup_delete_Some.
      by apply (Hinj r1 r2 t1 t2).
  - injection Hstep as <- <-. rewrite displayStatus_sums. split; [done|simpl; lia].
Qed.

Lemma run_ticket_ids_ok s cs s' os :
  ticket_ids_ok s → run s cs = Some (s', os) →
  ParkingSystem.ticketCounter s + Z.of_nat (length (issued_ids os)) ≤ INT_MAX →
  ticket_ids_ok s'
  ∧ ParkingSystem.ticketCounter s'
    = ParkingSystem.ticketCounter s + Z.of_nat (length (issued_ids os)).
Proof.
  revert s os. induction cs as [|c cs IH]; intros s os Hok.
  - intros [= <- <-] _. split; [done|simpl; lia].
  - intros (s1 & o & os' & Hstep & Hrun & ->)%run_cons Hup.
    assert (Hlen : length (issued_ids (o :: os'))
                   = (length (issued_ids [o]) + length (issued_ids os'))%nat).
    { change (o :: os') with ([o] ++ os').
      unfold issued_ids. by rewrite omap_app, length_app. }
    rewrite Hlen in *.
    destruct (step_ticket_ids_ok s c s1 o Hok Hstep) as [Hok1 Hc1]; [lia|].
    destruct (IH s1 os' Hok1 Hrun) as [Hok' Hc']; [lia|].
    split; [done|lia].
Qed.

Lemma new_ticket_ids_ok n c b : ticket_ids_ok (ParkingSystem.new n c b).
Proof. split; [done|]. split; intros *; simpl; by rewrite lookup_empty. Qed.

(** X6: in every state reached from a freshly constructed facility by a run
    that has issued at most 2147482647 tickets, so that the 32-bit counter
    has not wrapped around, the counter is 1000 plus the number of tickets
    issued, the ids of the active tickets lie between 1001 and the counter,
    and two registrations never hold tickets with the same id. *)
Theorem active_ticket_ids_unique (numFloors carsPerFloor bikesPerFloor : Z)
    (cs : list Command) (s : ParkingSystem.t) (os : list Output)
    (r1 r2 : string) (t1 t2 : Ticket.t) :
  run (ParkingSystem.new numFloors carsPerFloor bikesPerFloor) cs = Some (s, os) →
  Z.of_nat (length (issued_ids os)) ≤ 2147482647 →
  ParkingSystem.activeTickets s !! r1 = Some t1 →
  ParkingSystem.activeTickets s !! r2 = Some t2 →
  ParkingSystem.ticketCounter s = 1000 + Z.of_nat (length (issued_ids os))
  ∧ 1001 ≤ Ticket.id t1 ≤ ParkingSystem.ticketCounter s
  ∧ ParkingSystem.ticketCounter s ≤ INT_MAX
  ∧ (Ticket.id t1 = Ticket.id t2 → r1 = r2).
Proof.
  intros Hrun Hlen H1 H2.
  destruct (run_ticket_ids_ok _ cs s os
              (new_ticket_ids_ok numFloors carsPerFloor bikesPerFloor) Hrun)
    as [(_ & Hrange & Hinj) Hctr]; [unfold INT_MAX; simpl; lia|].
  simpl in Hctr. split; [done|].
  split; [specialize (Hrange r1 t1 H1); lia|].
  split; [unfold INT_MAX; lia|]. by apply (Hinj r1 r2 t1 t2).
Qed.

Lemma active_ticket_ids_unique_witness :
  ParkingSystem.ticketCounter demo_parked = 1000 + Z.of_nat 2
  ∧ 1001 ≤ Ticket.id demo_ticket ≤ ParkingSystem.ticketCounter demo_parked.
Proof.
  destruct (active_ticket_ids_unique 3 10 5 [Park 1 "KA01" 0; Park 2 "KA02" 10]
              demo_parked [VehicleParked 1001; VehicleParked 1002]
              "KA01" "KA01" demo_ticket demo_ticket)
    as (Hc & Hr & _); [reflexivity|discriminate|reflexivity..|].
  split; [exact Hc|exact Hr].
Defined.

Lemma layout_lookup s s' k j sl :
  layout s = layout s' →
  slot_at (ParkingSystem.floors s) k j = Some sl →
  ∃ f' sl', ParkingSystem.floors s' !! k = Some f'
            ∧ ParkingFloor.slots f' !! j = Some sl'
            ∧ slot_key sl' = slot_key sl.
Proof.
  unfold layout. intros Heq (f & Hk & Hj)%slot_at_floor.
  assert (Hk' : (floor_layout <$> ParkingSystem.floors s') !! k = Some (floor_layout f))
    by (rewrite <- Heq, list_lookup_fmap, Hk; done).
  rewrite list_lookup_fmap in Hk'.
  destruct (ParkingSystem.floors s' !! k) as [f'|]; [|done].
  simpl in Hk'. injection Hk' as Hnum Hslots.
  assert (Hj' : (slot_key <$> ParkingFloor.slots f') !! j = Some (slot_key sl))
    by (rewrite Hslots, list_lookup_fmap, Hj; done).
  rewrite list_lookup_fmap in Hj'.
  destruct (ParkingFloor.slots f' !! j) as [sl'|] eqn:E; [|done].
  exists f', sl'. do 2 (split; [done|]). simpl in Hj'. congruence.
Qed.

(** X7: in every state reached from a facility built for [n] floors of [c]
    car slots and [b] bike slots, an active ticket is stored under its own
    registration, is marked active, and names a floor from
    1 to [n] and a slot from 1 to [c + b]; a CAR ticket names one of the
    first [c] slots and any other ticket, which is a BIKE ticket, one of the
    last [b]. *)
Theorem active_ticket_wellformed (numFloors carsPerFloor bikesPerFloor : Z)
    (cs : list Command) (s : ParkingSystem.t) (os : list Output)
    (reg : string) (tk : Ticket.t) :
  run (ParkingSystem.new numFloors carsPerFloor bikesPerFloor) cs = Some (s, os) →
  ParkingSystem.activeTickets s !! reg = Some tk →
  Ticket.vehicleReg tk = reg
  ∧ Ticket.isActive tk = true
  ∧ 1 ≤ Ticket.floor tk ≤ numFloors
  ∧ 1 ≤ Ticket.slotId tk ≤ Z.max 0 carsPerFloor + Z.max 0 bikesPerFloor
  ∧ ((Ticket.vehicleType tk = CAR ∧ Ticket.slotId tk ≤ carsPerFloor)
     ∨ (Ticket.vehicleType tk = BIKE ∧ carsPerFloor < Ticket.slotId tk)).
Proof.
  intros Hrun Htk.
  assert (Hinv : invariant s)
    by (apply reachable_invariant; by exists numFloors, carsPerFloor, bikesPerFloor, cs, os).
  destruct (inv_ticket s Hinv reg tk Htk)
    as (k & j & sl & v & Hf & Hs & Hat & Hcur & Hty & _ & Hreg & Hact).
  destruct (inv_slot s Hinv k j sl Hat) as (_ & _ & Hcons).
  unfold slot_consistent in Hcons. rewrite Hcur in Hcons.
  destruct Hcons as (_ & Hallowed & _).
  destruct (layout_lookup s _ k j sl (run_layout _ _ _ _ Hrun) Hat)
    as (f0 & sl0 & Hk0 & Hj0 & Hkey).
  pose proof (lookup_lt_Some _ _ _ Hk0) as Hklt.
  pose proof (lookup_lt_Some _ _ _ Hj0) as Hjlt.
  simpl in Hklt. rewrite length_fmap, length_seqZ in Hklt.
  apply new_floors_lookup in Hk0 as ->.
  destruct (new_floor_spec (Z.of_nat k + 1) carsPerFloor bikesPerFloor)
    as (_ & _ & Hlen & Hslots).
  rewrite Hlen in Hjlt. rewrite (Hslots j sl0 Hj0) in Hkey.
  unfold slot_key in Hkey. simpl in Hkey. injection Hkey as _ _ Hallowed0.
  do 2 (split; [done|]). split; [lia|]. split; [lia|].
  rewrite Hty, Hallowed, <- Hallowed0, Hs.
  case_decide; [left|right]; split; try done; lia.
Qed.

Lemma active_ticket_wellformed_witness :
  Ticket.vehicleReg demo_ticket = "KA01"
  ∧ Ticket.isActive demo_ticket = true
  ∧ 1 ≤ Ticket.floor demo_ticket ≤ 3
  ∧ 1 ≤ Ticket.slotId demo_ticket ≤ Z.max 0 10 + Z.max 0 5
  ∧ ((Ticket.vehicleType demo_ticket = CAR ∧ Ticket.slotId demo_ticket ≤ 10)
     ∨ (Ticket.vehicleType demo_ticket = BIKE ∧ 10 < Ticket.slotId demo_ticket)).
Proof.
  apply (active_ticket_wellformed 3 10 5 [Park 1 "KA01" 0; Park 2 "KA02" 10]
           demo_parked [VehicleParked 1001; VehicleParked 1002] "KA01" demo_ticket);
    reflexivity.
Defined.


(** ** Parking and unparking *)


(** Parking under a registration without a ticket and unparking it again
    gives back the tickets and the slots. *)
Lemma park_unpark_undo s typeChoice reg entry exit :
  invariant s →
  ParkingSystem.activeTickets s !! reg = None →
  has_free_slot (Vehicle.type (ParkingSystem.make_vehicle typeChoice reg)) s = true →
  ∃ s1 s2 tk,
    ParkingSystem.parkVehicle typeChoice reg entry s
    = Some (s1, VehicleParked (int_wrap (ParkingSystem.ticketCounter s + 1)))
    ∧ Ticket.entryTime tk = entry
    ∧ Ticket.vehicleType tk = Vehicle.type (ParkingSystem.make_vehicle typeChoice reg)
    ∧ ParkingSystem.unparkVehicle reg exit s1
      = Some (s2, ParkingCharge (ParkingSystem.charge_of exit tk))
    ∧ invariant s2
    ∧ ParkingSystem.activeTickets s2 = ParkingSystem.activeTickets s
    ∧ floor_contents <$> ParkingSystem.floors s2
      = floor_contents <$> ParkingSystem.floors s
    ∧ ParkingSystem.ticketCounter s2 = int_wrap (ParkingSystem.ticketCounter s + 1)
    ∧ ParkingSystem.totalRevenue s2
      = (ParkingSystem.totalRevenue s + ParkingSystem.charge_of exit tk)%Q.
Proof.
  intros Hinv Hnone Hfree.
  destruct (parkVehicle_cases typeChoice reg entry s (invariant_ids s Hinv))
    as [[_ Hfull]|(k & f & i & sl & Hk & _ & Hfind & Hpark)]; [congruence|].
  set (v := ParkingSystem.make_vehicle typeChoice reg) in *.
  set (s1 := park_state typeChoice reg entry k i f sl s) in *.
  pose proof (park_state_invariant typeChoice reg entry s k f i sl Hinv Hk Hfind) as Hinv1.
  fold s1 in Hinv1.
  pose proof Hfind as (Hi & [Hstatus Hallowed]%isCompatible_true & _)%findAvailableSlot_Some.
  assert (Hat : slot_at (ParkingSystem.floors s) k i = Some sl)
    by (apply slot_at_floor; eauto).
  destruct (inv_slot s Hinv k i sl Hat) as (Hid & Hfl & Hcons).
  assert (Hempty : ParkingSlot.currentVehicle sl = None).
  { unfold slot_consistent in Hcons.
    destruct (ParkingSlot.currentVehicle sl); [|done].
    destruct Hcons as [Hocc _]. congruence. }
  set (tk := Ticket.new entry (int_wrap (ParkingSystem.ticketCounter s + 1)) reg
               (Vehicle.type v) (ParkingSlot.floor sl) (ParkingSlot.id sl)).
  assert (Htk : ParkingSystem.activeTickets s1 !! reg = Some tk)
    by apply lookup_insert_eq.
  destruct (unparkVehicle_cases reg exit s1 tk Hinv1 Htk)
    as (k' & j' & f' & sl' & v' & Hf' & Hs' & Hk' & Hj' & _ & _ & Hunpark).
  pose proof (unpark_state_invariant reg exit s1 tk k' j' f' sl' Hinv1 Htk Hf' Hs' Hk' Hj')
    as Hinv2.
  simpl in Hf', Hs'.
  assert (k' = k) as -> by lia. assert (j' = i) as -> by lia.
  pose proof (lookup_lt_Some _ _ _ Hk) as Hklt.
  pose proof (lookup_lt_Some _ _ _ Hi) as Hilt.
  unfold s1, park_state in Hk'. simpl in Hk'.
  rewrite list_lookup_insert_eq in Hk' by done. injection Hk' as <-.
  simpl in Hj'. rewrite list_lookup_insert_eq in Hj' by done. injection Hj' as <-.
  fold v in Hunpark, Hinv2.
  exists s1, (unpark_state reg exit k i (floor_park entry v i f sl)
                (ParkingSlot.occupy entry v sl) tk s1), tk.
  do 5 (split; [done|]).
  split; [simpl; rewrite delete_insert_eq; by apply delete_id|].
  split; [|done].
  simpl. rewrite list_insert_insert_eq, list_fmap_insert.
  apply list_insert_id. rewrite list_lookup_fmap, Hk. simpl. f_equal.
  unfold floor_contents. simpl.
  rewrite list_insert_insert_eq, list_fmap_insert. f_equal; [|lia]. f_equal.
  symmetry. apply list_insert_id. rewrite list_lookup_fmap, Hi. simpl. f_equal.
  unfold slot_contents. simpl. by rewrite Hstatus, Hempty.
Qed.




(** ** The ticket counter past [INT_MAX] *)

Lemma existsb_fmap {A B} (g : A → B) (p : B → bool) (l : list A) :
  existsb p (g <$> l) = existsb (λ x, p (g x)) l.
Proof.
  induction l as [|x l IH]; [done|]. rewrite fmap_cons. cbn [existsb].
  by rewrite IH.
Qed.

Lemma existsb_pointwise {A} (p q : A → bool) (l : list A) :
  (∀ x, p x = q x) → existsb p l = existsb q l.
Proof. intros H. induction l as [|x l IH]; [done|]. simpl. by rewrite H, IH. Qed.

Lemma has_free_slot_contents type s s' :
  floor_contents <$> ParkingSystem.floors s = floor_contents <$> ParkingSystem.floors s' →
  has_free_slot type s = has_free_slot type s'.
Proof.
  intros Heq.
  assert (H : ∀ fs,
    existsb (λ f, existsb (ParkingSlot.isCompatible type) (ParkingFloor.slots f)) fs
    = existsb (λ fc : Z * list (Z * Z * SlotStatus * VehicleType * option Vehicle.t) * Z,
                 existsb (λ sc, bool_decide (sc.1.1.2 = FREE)
                                && bool_decide (sc.1.2 = type)) fc.1.2)
              (floor_contents <$> fs)).
  { intros fs. rewrite existsb_fmap. apply existsb_pointwise. intros f.
    change ((floor_contents f).1.2) with (slot_contents <$> ParkingFloor.slots f).
    by rewrite existsb_fmap. }
  unfold has_free_slot. by rewrite !H, Heq.
Qed.

(** Every cycle issues a ticket and leaves the tickets and the slots as
    they were. *)
Lemma park_unpark_cycles_run n s :
  invariant s →
  ParkingSystem.activeTickets s !! "KA01" = None →
  has_free_slot CAR s = true →
  ∃ s' os,
    run s (park_unpark_cycles n) = Some (s', os)
    ∧ invariant s'
    ∧ ParkingSystem.activeTickets s' !! "KA01" = None
    ∧ has_free_slot CAR s' = true
    ∧ length (issued_ids os) = n.
Proof.
  revert s. induction n as [|n IH]; intros s Hinv Hnone Hfree.
  { by exists s, []. }
  destruct (park_unpark_undo s 1 "KA01" 0 0 Hinv Hnone Hfree)
    as (s1 & s2 & tk & Hpark & _ & _ & Hunpark & Hinv2 & Htks & Hfloors & _).
  destruct (IH s2) as (s' & os & Hrun & Hinv' & Hnone' & Hfree' & Hlen);
    [done|by rewrite Htks|by rewrite (has_free_slot_contents CAR s2 s)|].
  exists s', (VehicleParked (int_wrap (ParkingSystem.ticketCounter s + 1))
              :: ParkingCharge (ParkingSystem.charge_of 0 tk) :: os).
  split.
  { cbn [park_unpark_cycles]. apply run_cons. eexists _, _, _.
    split; [exact Hpark|]. split; [|done].
    apply run_cons. eexists _, _, _. split; [exact Hunpark|]. by split. }
  do 3 (split; [done|]). rewrite !issued_ids_cons. simpl. by rewrite Hlen.
Qed.

(** After [n] = 2147482647 cycles the counter is [INT_MAX], and the next
    ticket has the id -2147483648. *)
Lemma park_unpark_cycles_wrap n :
  Z.of_nat n = 2147482647 →
  ∃ s os,
    run (ParkingSystem.new 1 1 0) (park_unpark_cycles n ++ [Park 1 "KA01" 0])
    = Some (s, os)
    ∧ issued_ids os = seqZ 1001 (Z.of_nat n) ++ [-2147483648]
    ∧ issued_ids os ≠ seqZ 1001 (Z.of_nat (length (issued_ids os))).
Proof.
  intros Hn.
  destruct (park_unpark_cycles_run n (ParkingSystem.new 1 1 0))
    as (s1 & os1 & Hrun1 & Hinv1 & Hnone1 & Hfree1 & Hlen1);
    [apply new_invariant|reflexivity..|].
  destruct (run_ticket_ids_bounded _ _ _ _ Hrun1) as [Hids1 Hctr1];
    [cbn [ParkingSystem.new ParkingSystem.ticketCounter]; lia
    |cbn [ParkingSystem.new ParkingSystem.ticketCounter]; unfold INT_MAX; lia|].
  cbn [ParkingSystem.new ParkingSystem.ticketCounter] in Hids1, Hctr1.
  rewrite Hlen1 in Hids1, Hctr1. rewrite Hn in Hctr1.
  destruct (parkVehicle_cases 1 "KA01" 0 s1 (invariant_ids s1 Hinv1))
    as [[_ Hfull]|(k & f & i & sl & _ & _ & _ & Hpark)];
    [change (has_free_slot CAR s1 = false) in Hfull; congruence|].
  rewrite Hctr1 in Hpark.
  change (int_wrap (1000 + 2147482647 + 1)) with (-2147483648) in Hpark.
  assert (Hids : issued_ids (os1 ++ [VehicleParked (-2147483648)])
                 = seqZ 1001 (Z.of_nat n) ++ [-2147483648]).
  { unfold issued_ids at 1. rewrite omap_app. fold (issued_ids os1).
    rewrite Hids1. by f_equal. }
  eexists _, (os1 ++ [VehicleParked (-2147483648)]). split.
  { apply run_app. eexists _, _, _. split; [exact Hrun1|]. split; [|done].
    apply run_cons. eexists _, _, _. split; [exact Hpark|]. by split. }
  split; [exact Hids|].
  intros Heq.
  assert (Hin : -2147483648 ∈ issued_ids (os1 ++ [VehicleParked (-2147483648)])).
  { rewrite Hids. apply elem_of_app. right. apply list_elem_of_here. }
  rewrite Heq in Hin. apply elem_of_seqZ in Hin. lia.
Qed.

(** Without the bound the property fails at the 2147482648th ticket: in a
    facility of one car slot, a car is parked and unparked 2147482647 times
    and parked once more.  The tickets issued are 1001, ..., 2147483647 and
    then -2147483648, which is not one greater than the id before it. *)
Lemma ticket_ids_sequential_counterexample :
  ∃ s os,
    run (ParkingSystem.new 1 1 0)
        (park_unpark_cycles (Z.to_nat 2147482647) ++ [Park 1 "KA01" 0])
    = Some (s, os)
    ∧ issued_ids os = seqZ 1001 2147482647 ++ [-2147483648]
    ∧ issued_ids os ≠ seqZ 1001 (Z.of_nat (length (issued_ids os))).
Proof.
  assert (Hn : Z.of_nat (Z.to_nat 2147482647) = 2147482647) by (apply Z2Nat.id; lia).
  destruct (park_unpark_cycles_wrap (Z.to_nat 2147482647) Hn)
    as (s & os & Hrun & Hids & Hne).
  rewrite Hn in Hids. exists s, os. split; [exact Hrun|]. split; [exact Hids|exact Hne].
Qed.


(** ** Slots without a ticket *)

Lemma step_cases s c s' o :
  invariant s → step s c = Some (s', o) →
  (s' = s ∧ is_repark s c o = false)
  ∨ (∃ typeChoice reg now k f i sl,
       c = Park typeChoice reg now
       ∧ o = VehicleParked (int_wrap (ParkingSystem.ticketCounter s + 1))
       ∧ ParkingSystem.floors s !! k = Some f
       ∧ ParkingFloor.findAvailableSlot
           (Vehicle.type (ParkingSystem.make_vehicle typeChoice reg)) f = Some (i, sl)
       ∧ s' = park_state typeChoice reg now k i f sl s)
  ∨ (∃ reg now tk k j f sl,
       c = Unpark reg now
       ∧ o = ParkingCharge (ParkingSystem.charge_of now tk)
       ∧ ParkingSystem.activeTickets s !! reg = Some tk
       ∧ Ticket.floor tk = Z.of_nat k + 1 ∧ Ticket.slotId tk = Z.of_nat j + 1
       ∧ ParkingSystem.floors s !! k = Some f
       ∧ ParkingFloor.slots f !! j = Some sl
       ∧ s' = unpark_state reg now k j f sl tk s).
Proof.
  intros Hinv Hstep. destruct c as [typeChoice reg now|reg now|]; simpl in Hstep.
  - destruct (parkVehicle_cases typeChoice reg now s (invariant_ids s Hinv))
      as [[Hrun _]|(k & f & i & sl & Hk & _ & Hfind & Hrun)].
    + left. rewrite Hrun in Hstep. by injection Hstep as <- <-.
    + right; left. rewrite Hrun in Hstep. injection Hstep as <- <-.
      by exists typeChoice, reg, now, k, f, i, sl.
  - destruct (ParkingSystem.activeTickets s !! reg) as [tk|] eqn:Htk.
    + destruct (unparkVehicle_cases reg now s tk Hinv Htk)
        as (k & j & f & sl & v & Hf & Hs & Hk & Hj & _ & _ & Hrun).
      right; right. rewrite Hrun in Hstep. injection Hstep as <- <-.
      by exists reg, now, tk, k, j, f, sl.
    + left. unfold ParkingSystem.unparkVehicle in Hstep. rewrite Htk in Hstep.
      by injection Hstep as <- <-.
  - left. injection Hstep as <- <-. split; [done|].
    by rewrite displayStatus_sums.
Qed.

Lemma step_keeps_unnamed_slot s c s' o k j sl :
  invariant s → step s c = Some (s', o) →
  slot_at (ParkingSystem.floors s) k j = Some sl →
  ParkingSlot.status sl = OCCUPIED →
  no_ticket_names s (Z.of_nat k + 1) (Z.of_nat j + 1) →
  slot_at (ParkingSystem.floors s') k j = Some sl
  ∧ no_ticket_names s' (Z.of_nat k + 1) (Z.of_nat j + 1).
Proof.
  intros Hinv Hstep Hat Hocc Hno.
  destruct (step_cases s c s' o Hinv Hstep)
    as [[-> _]|[(typeChoice & reg & now & k0 & f & i & sl0 & -> & -> & Hk & Hfind & ->)
               |(reg & now & tk & k0 & j0 & f & sl0 & -> & -> & Htk & Hf & Hs & Hk & Hj & ->)]];
    [done|..].
  - pose proof Hfind as (Hi & [Hfree _]%isCompatible_true & _)%findAvailableSlot_Some.
    assert (Hat0 : slot_at (ParkingSystem.floors s) k0 i = Some sl0)
      by (apply slot_at_floor; eauto).
    destruct (inv_slot s Hinv k0 i sl0 Hat0) as (Hid0 & Hfl0 & _).
    assert (Hne : ¬ (k = k0 ∧ j = i)).
    { intros [-> ->]. rewrite Hat in Hat0. injection Hat0 as <-. congruence. }
    split.
    + rewrite (park_state_slot_at _ _ _ _ _ _ _ _ _ _ Hk Hi). by rewrite decide_False.
    + intros r t. simpl. destruct (decide (r = reg)) as [->|Hr].
      * rewrite lookup_insert_eq. intros [= <-] [Ef Es]. simpl in *. apply Hne. lia.
      * rewrite lookup_insert_ne by done. apply Hno.
  - assert (Hne : ¬ (k = k0 ∧ j = j0)).
    { intros [-> ->]. apply (Hno reg tk Htk). done. }
    split.
    + rewrite (unpark_state_slot_at _ _ _ _ _ _ _ _ _ _ Hk Hj). by rewrite decide_False.
    + intros r t. simpl. intros [_ Ht]%lookup_delete_Some. by apply (Hno r t).
Qed.

Lemma run_keeps_unnamed_slot s cs s' os k j sl :
  invariant s → run s cs = Some (s', os) →
  slot_at (ParkingSystem.floors s) k j = Some sl →
  ParkingSlot.status sl = OCCUPIED →
  no_ticket_names s (Z.of_nat k + 1) (Z.of_nat j + 1) →
  invariant s'
  ∧ slot_at (ParkingSystem.floors s') k j = Some sl
  ∧ no_ticket_names s' (Z.of_nat k + 1) (Z.of_nat j + 1).
Proof.
  revert s os. induction cs as [|c cs IH]; intros s os Hinv.
  - by intros [= <- <-].
  - intros (s1 & o & os' & Hstep & Hrun & ->)%run_cons Hat Hocc Hno.
    destruct (step_invariant s c Hinv) as (s1' & o' & Hstep' & Hinv1).
    rewrite Hstep in Hstep'. injection Hstep' as <- <-.
    destruct (step_keeps_unnamed_slot s c s1 o k j sl Hinv Hstep Hat Hocc Hno)
      as [Hat1 Hno1].
    by apply (IH s1 os').
Qed.

(** X9: in every state the program reaches, an occupied slot that no
    active ticket names stays as it is through every further run: it is
    never vacated and never given a ticket. *)
Theorem unnamed_occupied_slot_stays (s s' : ParkingSystem.t) (cs : list Command)
    (os : list Output) (flr slotId : Z) (sl : ParkingSlot.t) :
  reachable s →
  slot_of s flr slotId sl →
  ParkingSlot.status sl = OCCUPIED →
  no_ticket_names s flr slotId →
  run s cs = Some (s', os) →
  slot_of s' flr slotId sl ∧ no_ticket_names s' flr slotId.
Proof.
  intros Hinv%reachable_invariant Hof Hocc Hno Hrun.
  destruct (slot_of_slot_at s flr slotId sl Hinv Hof) as (k & j & -> & -> & Hat).
  destruct (run_keeps_unnamed_slot s cs s' os k j sl Hinv Hrun Hat Hocc Hno)
    as (Hinv' & Hat' & Hno').
  split; [by apply slot_at_slot_of|done].
Qed.

Lemma demo_reparked_reachable : reachable demo_reparked.
Proof.
  exists 3, 10, 5, [Park 1 "KA01" 0; Park 2 "KA02" 10; Park 1 "KA01" 20],
    [VehicleParked 1001; VehicleParked 1002; VehicleParked 1003].
  reflexivity.
Defined.

Lemma unnamed_occupied_slot_stays_witness :
  slot_of (final_state demo_reparked [Unpark "KA01" 30; Park 1 "KA05" 40]) 1 1
    (ParkingSlot.occupy 0 (Vehicle.Car "KA01") (ParkingSlot.new 1 1 CAR))
  ∧ no_ticket_names (final_state demo_reparked [Unpark "KA01" 30; Park 1 "KA05" 40]) 1 1.
Proof.
  apply (unnamed_occupied_slot_stays demo_reparked
           (final_state demo_reparked [Unpark "KA01" 30; Park 1 "KA05" 40])
           [Unpark "KA01" 30; Park 1 "KA05" 40]
           (output_of demo_reparked [Unpark "KA01" 30; Park 1 "KA05" 40])
           1 1 (ParkingSlot.occupy 0 (Vehicle.Car "KA01") (ParkingSlot.new 1 1 CAR))).
  - exact demo_reparked_reachable.
  - apply (slot_at_slot_of demo_reparked 0 0);
      [exact (reachable_invariant _ demo_reparked_reachable)|vm_compute; reflexivity].
  - reflexivity.
  - apply (bool_decide_unpack
             (map_Forall (λ (_ : string) tk, ¬ (Ticket.floor tk = 1 ∧ Ticket.slotId tk = 1))
                         (ParkingSystem.activeTickets demo_reparked))).
    vm_compute. exact I.
  - vm_compute. reflexivity.
Defined.


(** ** Counting tickets and occupied slots *)

Lemma sumZ_fmap_insert {A} (g : A → Z) (l : list A) k x y :
  l !! k = Some x →
  sumZ (g <$> <[k := y]> l) = sumZ (g <$> l) - g x + g y.
Proof.
  revert k. induction l as [|a l IH]; intros k Hk; [done|].
  destruct k as [|k].
  - injection Hk as ->. change (<[0%nat := y]> (x :: l)) with (y :: l).
    rewrite !fmap_cons, !sumZ_cons. lia.
  - change (<[S k := y]> (a :: l)) with (a :: <[k := y]> l).
    rewrite !fmap_cons, !sumZ_cons, (IH k Hk). lia.
Qed.

Lemma size_lookup_Some (m : gmap string Ticket.t) reg tk :
  m !! reg = Some tk → size m = S (size (delete reg m)).
Proof.
  intros Hreg. rewrite <- (insert_delete_id m reg tk Hreg) at 1.
  apply map_size_insert_None, lookup_delete_eq.
Qed.

Lemma step_unticketed s c s' o :
  invariant s → step s c = Some (s', o) →
  unticketed s' = unticketed s + (if is_repark s c o then 1 else 0).
Proof.
  intros Hinv Hstep.
  destruct (step_cases s c s' o Hinv Hstep)
    as [[-> ->]|[(typeChoice & reg & now & k0 & f & i & sl0 & -> & -> & Hk & Hfind & ->)
               |(reg & now & tk & k0 & j0 & f & sl0 & -> & -> & Htk & Hf & Hs & Hk & Hj & ->)]];
    [lia|..].
  - pose proof Hfind as (Hi & [Hfree _]%isCompatible_true & _)%findAvailableSlot_Some.
    unfold unticketed, total_occupied, tickets_count, park_state. simpl.
    rewrite (sumZ_fmap_insert _ _ k0 f) by done. simpl.
    rewrite (occupied_count_insert _ i sl0) by done.
    unfold occ_bit. simpl. rewrite Hfree. simpl.
    rewrite map_size_insert.
    destruct (ParkingSystem.activeTickets s !! reg) as [old|] eqn:E.
    + rewrite bool_decide_eq_true_2 by eauto. simpl. lia.
    + rewrite bool_decide_eq_false_2 by (intros [? ?]; done). simpl. lia.
  - assert (Hat : slot_at (ParkingSystem.floors s) k0 j0 = Some sl0)
      by (apply slot_at_floor; eauto).
    assert (Hocc : ParkingSlot.status sl0 = OCCUPIED).
    { destruct (inv_ticket s Hinv reg tk Htk)
        as (k' & j' & sl' & v & Hf' & Hs' & Hat' & Hcur & _).
      assert (k' = k0) as -> by lia. assert (j' = j0) as -> by lia.
      rewrite Hat in Hat'. injection Hat' as <-.
      destruct (inv_slot s Hinv k0 j0 sl0 Hat) as (_ & _ & Hcons).
      unfold slot_consistent in Hcons. rewrite Hcur in Hcons. tauto. }
    unfold unticketed, total_occupied, tickets_count, unpark_state. simpl.
    rewrite (sumZ_fmap_insert _ _ k0 f) by done. simpl.
    rewrite (occupied_count_insert _ j0 sl0) by done.
    unfold occ_bit. simpl. rewrite Hocc. simpl.
    rewrite (size_lookup_Some _ reg tk Htk). lia.
Qed.

Lemma run_unticketed s cs s' os :
  invariant s → run s cs = Some (s', os) → unticketed s ≤ unticketed s'.
Proof.
  revert s os. induction cs as [|c cs IH]; intros s os Hinv.
  - intros [= <- <-]. lia.
  - intros (s1 & o & os' & Hstep & Hrun & ->)%run_cons.
    destruct (step_invariant s c Hinv) as (s1' & o' & Hstep' & Hinv1).
    rewrite Hstep in Hstep'. injection Hstep' as <- <-.
    pose proof (step_unticketed s c s1 o Hinv Hstep).
    pose proof (IH s1 os' Hinv1 Hrun). destruct (is_repark s c o); lia.
Qed.

(** X10: in every state the program reaches there are at least as many
    occupied slots as active tickets; an operation changes the surplus of
    occupied slots only when it is a successful park under a registration
    that already has a ticket, which raises it by one: no operation ever
    lowers it. *)
Theorem occupied_slots_cover_tickets (s s' : ParkingSystem.t) (c : Command)
    (o : Output) :
  reachable s →
  step s c = Some (s', o) →
  tickets_count s ≤ total_occupied s
  ∧ total_occupied s' - tickets_count s'
    = total_occupied s - tickets_count s + (if is_repark s c o then 1 else 0).
Proof.
  intros Hreach Hstep. pose proof (reachable_invariant s Hreach) as Hinv.
  split; [|by apply step_unticketed].
  destruct Hreach as (n & cb & bb & cs & os & Hrun).
  pose proof (run_unticketed _ cs s os (new_invariant n cb bb) Hrun) as Hle.
  assert (H0 : unticketed (ParkingSystem.new n cb bb) = 0).
  { unfold unticketed, tickets_count. simpl. rewrite map_size_empty.
    by rewrite (new_total_occupied n cb bb). }
  unfold unticketed in *. lia.
Qed.

Lemma occupied_slots_cover_tickets_witness :
  tickets_count demo_parked ≤ total_occupied demo_parked.
Proof.
  destruct (occupied_slots_cover_tickets demo_parked demo_reparked
              (Park 1 "KA01" 20) (VehicleParked 1003) demo_parked_reachable)
    as [H _]; [vm_compute; reflexivity|exact H].
Defined.


(** ** The charge *)

Lemma ceil_hours_monotone entry exit exit' :
  exit ≤ exit' → ceil_hours entry exit ≤ ceil_hours entry exit'.
Proof.
  intros Hle. unfold ceil_hours. apply Qceiling_resp_le.
  apply Qmult_le_compat_r.
  - rewrite <- Zle_Qle. lia.
  - apply Qinv_le_0_compat. done.
Qed.

Lemma Qmin_inject_Z a b : Qmin (inject_Z a) (inject_Z b) = inject_Z (Z.min a b).
Proof.
  unfold Qmin, GenericMinMax.gmin, Qcompare, Z.min. simpl. rewrite !Z.mul_1_r.
  by destruct (a ?= b).
Qed.

(** The charge as a whole number, for a clock that has not been set
    back. *)
Lemma charge_of_integer now tk :
  Ticket.entryTime tk ≤ now →
  ParkingSystem.charge_of now tk
  = inject_Z (Z.min (ceil_hours (Ticket.entryTime tk) now
                     * (if bool_decide (Ticket.vehicleType tk = CAR) then 20 else 10))
                    200).
Proof.
  intros Hle. rewrite (charge_of_formula _ _ Hle), <- Qmin_inject_Z, inject_Z_mult.
  by case_bool_decide.
Qed.

(** X11: the charge for a ticket is a whole number: the hours rounded up
    times 20 for a CAR ticket and 10 for any other, capped at 200.  It is
    never above 200, it is at least 10 once the clock has moved past the
    entry, and a later exit never costs less than an earlier one. *)
Theorem charge_bounds_and_monotone (tk : Ticket.t) (exit exit' : time_point) :
  Ticket.entryTime tk < exit → exit ≤ exit' →
  ParkingSystem.charge_of exit tk
  = inject_Z (Z.min (ceil_hours (Ticket.entryTime tk) exit
                     * (if bool_decide (Ticket.vehicleType tk = CAR) then 20 else 10))
                    200)
  ∧ (10 <= ParkingSystem.charge_of exit tk)%Q
  ∧ (ParkingSystem.charge_of exit tk <= ParkingSystem.charge_of exit' tk)%Q
  ∧ (ParkingSystem.charge_of exit' tk <= 200)%Q.
Proof.
  intros Hpos Hle. rewrite !charge_of_integer by lia. split; [done|].
  pose proof (ceil_hours_positive _ _ Hpos) as H1.
  pose proof (ceil_hours_monotone (Ticket.entryTime tk) _ _ Hle) as H2.
  change 10%Q with (inject_Z 10). change 200%Q with (inject_Z 200).
  rewrite <- !Zle_Qle. case_bool_decide; lia.
Qed.

Lemma charge_bounds_and_monotone_witness :
  ParkingSystem.charge_of 3600000000001 demo_ticket = inject_Z 40
  ∧ (10 <= ParkingSystem.charge_of 3600000000001%Z demo_ticket)%Q
  ∧ (ParkingSystem.charge_of 3600000000001%Z demo_ticket
     <= ParkingSystem.charge_of 90000000000000%Z demo_ticket)%Q
  ∧ (ParkingSystem.charge_of 90000000000000%Z demo_ticket <= 200)%Q.
Proof.
  apply (charge_bounds_and_monotone demo_ticket 3600000000001 90000000000000);
    [reflexivity|discriminate].
Defined.

(** X23: for a clock that has not been set back, the rounding of the
    doubles never changes the bill.  The hours the billing code rounds up
    to, after the conversion of the tick count to a double and the two
    divisions, are the exact elapsed hours rounded up whenever these are at
    most 20, and are above 20 otherwise, where the daily maximum applies at
    either rate; they are never negative. *)
Theorem billed_hours_exact (tk : Ticket.t) (now : time_point) :
  Ticket.entryTime tk ≤ now →
  let billed := Qceiling (Ticket.getParkingDuration now (Ticket.exit now tk)) in
  let exact := ceil_hours (Ticket.entryTime tk) now in
  (exact ≤ 20 → billed = exact)
  ∧ (20 < exact → 20 < billed)
  ∧ 0 ≤ billed
  ∧ (ParkingSystem.charge_of now tk
     == Qmin (inject_Z exact * (if bool_decide (Ticket.vehicleType tk = CAR)
                                then 20 else 10)) 200)%Q.
Proof.
  intros Hle billed exact. unfold billed. rewrite getParkingDuration_exit.
  destruct (hours_exact _ _ Hle) as [H1 H2]. fold exact in H1, H2.
  pose proof (ceil_hours_nonneg _ _ Hle) as H0. fold exact in H0.
  split; [done|]. split; [done|]. split.
  - destruct (decide (exact ≤ 20)) as [Hk|Hk]; [rewrite H1; done|].
    specialize (H2 ltac:(lia)). lia.
  - rewrite (charge_of_formula _ _ Hle). fold exact.
    unfold CAR_HOURLY_RATE, BIKE_HOURLY_RATE, DAILY_MAX. reflexivity.
Qed.

Lemma billed_hours_exact_witness :
  Qceiling (Ticket.getParkingDuration 3600000000001
              (Ticket.exit 3600000000001 demo_ticket)) = 2
  ∧ ceil_hours 0 3600000000001 = 2.
Proof.
  destruct (billed_hours_exact demo_ticket 3600000000001) as (H & _);
    [discriminate|].
  split; [|reflexivity]. apply H. discriminate.
Defined.



(** X13: a registration cannot be billed twice for one park: when an
    unpark has charged a registration, unparking it again at once finds no
    ticket and changes nothing. *)
Theorem unpark_twice_not_found (s s1 : ParkingSystem.t) (reg : string)
    (now now' : time_point) (charge : Q) :
  ParkingSystem.unparkVehicle reg now s = Some (s1, ParkingCharge charge) →
  ParkingSystem.unparkVehicle reg now' s1 = Some (s1, VehicleNotFound).
Proof.
  intros [_ [(_ & [=] & _)|(tk & _ & _ & _ & Htks)]]%unparkVehicle_effect.
  unfold ParkingSystem.unparkVehicle. by rewrite Htks, lookup_delete_eq.
Qed.

Lemma unpark_twice_not_found_witness :
  ParkingSystem.unparkVehicle "KA01" 7200000000000
    (final_state demo_parked [Unpark "KA01" 3600000000001])
  = Some (final_state demo_parked [Unpark "KA01" 3600000000001], VehicleNotFound).
Proof.
  apply (unpark_twice_not_found demo_parked _ "KA01" 3600000000001 7200000000000 40).
  reflexivity.
Defined.

(** ** The operations of a floor, on any floor *)

Lemma vacateSlot_slots_find slotId ss :
  ParkingFloor.vacateSlot_slots slotId ss
  = (λ p : nat * ParkingSlot.t,
       (ParkingSlot.currentVehicle p.2, <[p.1 := vacated p.2]> ss))
    <$> list_find (λ sl, ParkingSlot.id sl = slotId ∧ ParkingSlot.status sl = OCCUPIED) ss.
Proof.
  induction ss as [|s rest IH]; [done|].
  cbn [ParkingFloor.vacateSlot_slots list_find].
  unfold ParkingSlot.getId, ParkingSlot.getStatus. case_decide as Hd.
  - destruct Hd as [-> ->]. by rewrite !bool_decide_eq_true_2.
  - replace (bool_decide (ParkingSlot.id s = slotId)
             && bool_decide (ParkingSlot.status s = OCCUPIED)) with false.
    + rewrite IH.
      destruct (list_find _ rest) as [[i sl]|]; done.
    + symmetry. apply andb_false_iff.
      destruct (decide (ParkingSlot.id s = slotId)) as [Hid|Hid].
      * right. apply bool_decide_eq_false_2. tauto.
      * left. by apply bool_decide_eq_false_2.
Qed.

(** X14: on any floor, [vacateSlot] frees the first slot in vector order
    that has the id and is occupied, returns the vehicle of that slot and
    takes one off the counter, leaving every other slot as it is; when no
    slot has the id and is occupied it returns null and the floor is as
    before. *)
Theorem floor_vacateSlot_first_occupied (slotId : Z) (f : ParkingFloor.t) :
  match list_find (λ sl, ParkingSlot.id sl = slotId ∧ ParkingSlot.status sl = OCCUPIED)
                  (ParkingFloor.slots f) with
  | Some (i, sl) =>
      ParkingFloor.vacateSlot slotId f
      = (ParkingSlot.currentVehicle sl,
         ParkingFloor.mk (ParkingFloor.floorNumber f)
           (<[i := vacated sl]> (ParkingFloor.slots f))
           (ParkingFloor.occupiedSlots f - 1))
  | None => ParkingFloor.vacateSlot slotId f = (None, f)
  end.
Proof.
  unfold ParkingFloor.vacateSlot. rewrite vacateSlot_slots_find.
  by destruct (list_find _ _) as [[i sl]|].
Qed.

Lemma parkVehicle_slots_no_id now slotId vehicle ss :
  (∀ sl, sl ∈ ss → ParkingSlot.id sl ≠ slotId) →
  ParkingFloor.parkVehicle_slots now slotId vehicle ss = Some (false, ss).
Proof.
  induction ss as [|s rest IH]; intros Hno; [done|]. simpl.
  unfold ParkingSlot.getId. rewrite bool_decide_eq_false_2 by (apply Hno; left).
  rewrite IH by (intros sl Hsl; apply Hno; by right). done.
Qed.

Lemma parkVehicle_slots_unique now slotId v ss :
  NoDup (ParkingSlot.id <$> ss) →
  ParkingFloor.parkVehicle_slots now slotId (Some v) ss
  = Some (match list_find (λ sl, ParkingSlot.id sl = slotId) ss with
          | Some (i, sl) =>
              if ParkingSlot.isCompatible (Vehicle.type v) sl
              then (true, <[i := ParkingSlot.occupy now v sl]> ss)
              else (false, ss)
          | None => (false, ss)
          end).
Proof.
  induction ss as [|s rest IH]; intros Hnd; [done|].
  rewrite fmap_cons in Hnd. apply NoDup_cons in Hnd as [Hnotin Hnd].
  cbn [ParkingFloor.parkVehicle_slots list_find]. unfold ParkingSlot.getId.
  case_decide as Hid.
  - rewrite bool_decide_eq_true_2 by done. simpl. unfold Vehicle.getType.
    destruct (ParkingSlot.isCompatible (Vehicle.type v) s); simpl; [done|].
    rewrite parkVehicle_slots_no_id; [done|].
    intros sl Hsl Heq. apply Hnotin. rewrite Hid, <- Heq.
    by apply list_elem_of_fmap_2.
  - rewrite bool_decide_eq_false_2 by done. rewrite (IH Hnd).
    destruct (list_find _ rest) as [[i sl]|]; simpl; [|done].
    by destruct (ParkingSlot.isCompatible (Vehicle.type v) sl).
Qed.

(** X15: on a floor whose slot ids are all different, [parkVehicle] with a
    vehicle in hand is defined: it puts the vehicle in the slot with the id
    and adds one to the counter when that slot is free and allows the type
    of the vehicle, and otherwise, also when no slot has the id, returns
    false and leaves the floor as it is. *)
Theorem floor_parkVehicle_unique_ids (now : time_point) (slotId : Z)
    (v : Vehicle.t) (f : ParkingFloor.t) :
  NoDup (ParkingSlot.id <$> ParkingFloor.slots f) →
  ParkingFloor.parkVehicle now slotId (Some v) f
  = Some (match list_find (λ sl, ParkingSlot.id sl = slotId) (ParkingFloor.slots f) with
          | Some (i, sl) =>
              if ParkingSlot.isCompatible (Vehicle.type v) sl
              then (true,
                    ParkingFloor.mk (ParkingFloor.floorNumber f)
                      (<[i := ParkingSlot.occupy now v sl]> (ParkingFloor.slots f))
                      (ParkingFloor.occupiedSlots f + 1))
              else (false, f)
          | None => (false, f)
          end).
Proof.
  intros Hnd. unfold ParkingFloor.parkVehicle.
  rewrite (parkVehicle_slots_unique now slotId v _ Hnd).
  destruct (list_find _ _) as [[i sl]|]; simpl.
  - destruct (ParkingSlot.isCompatible _ sl); [done|]. by destruct f.
  - by destruct f.
Qed.

Lemma floor_parkVehicle_unique_ids_witness :
  ParkingFloor.parkVehicle 5 2 (Some (Vehicle.Bike "KA07")) (ParkingFloor.new 1 1 1)
  = Some (true,
          ParkingFloor.mk 1
            [ParkingSlot.new 1 1 CAR;
             ParkingSlot.occupy 5 (Vehicle.Bike "KA07") (ParkingSlot.new 2 1 BIKE)] 1).
Proof.
  apply (floor_parkVehicle_unique_ids 5 2 (Vehicle.Bike "KA07") (ParkingFloor.new 1 1 1)).
  apply (bool_decide_unpack _). reflexivity.
Defined.

Lemma parkVehicle_slots_skip now slotId vehicle pre ss :
  (∀ sl, sl ∈ pre → ParkingSlot.id sl ≠ slotId) →
  ParkingFloor.parkVehicle_slots now slotId vehicle (pre ++ ss)
  = '(r, ss') ← ParkingFloor.parkVehicle_slots now slotId vehicle ss;
    Some (r, pre ++ ss').
Proof.
  induction pre as [|s pre IH]; intros Hno; simpl.
  - by destruct (ParkingFloor.parkVehicle_slots now slotId vehicle ss) as [[r ss']|].
  - unfold ParkingSlot.getId. rewrite bool_decide_eq_false_2 by (apply Hno; left).
    rewrite IH by (intros sl Hsl; apply Hno; by right).
    by destruct (ParkingFloor.parkVehicle_slots now slotId vehicle ss) as [[r ss']|].
Qed.

(** X16: on a floor where two slots have the same id, [parkVehicle] for
    that id is undefined when the first of them does not take the vehicle:
    the first call has moved the vehicle out of the pointer, and the call
    for the second slot dereferences the null pointer. *)
Theorem floor_parkVehicle_duplicate_id (now : time_point) (v : Vehicle.t)
    (f : ParkingFloor.t) (pre mid post : list ParkingSlot.t) (s1 s2 : ParkingSlot.t) :
  ParkingFloor.slots f = pre ++ s1 :: mid ++ s2 :: post →
  (∀ sl, sl ∈ pre ++ mid → ParkingSlot.id sl ≠ ParkingSlot.id s1) →
  ParkingSlot.id s2 = ParkingSlot.id s1 →
  ParkingSlot.isCompatible (Vehicle.type v) s1 = false →
  ParkingFloor.parkVehicle now (ParkingSlot.id s1) (Some v) f = None.
Proof.
  intros Hslots Hno Hid Hc. unfold ParkingFloor.parkVehicle. rewrite Hslots.
  rewrite parkVehicle_slots_skip by (intros sl Hsl; apply Hno, elem_of_app; by left).
  cbn [ParkingFloor.parkVehicle_slots]. unfold ParkingSlot.getId.
  rewrite bool_decide_eq_true_2 by done. simpl. unfold Vehicle.getType.
  rewrite Hc. simpl.
  rewrite parkVehicle_slots_skip by (intros sl Hsl; apply Hno, elem_of_app; by right).
  cbn [ParkingFloor.parkVehicle_slots]. unfold ParkingSlot.getId.
  rewrite bool_decide_eq_true_2 by done. done.
Qed.

Lemma floor_parkVehicle_duplicate_id_witness :
  ParkingFloor.parkVehicle 5 1 (Some (Vehicle.Car "KA07"))
    (ParkingFloor.mk 1 [ParkingSlot.new 1 1 BIKE; ParkingSlot.new 1 1 CAR] 0)
  = None.
Proof.
  apply (floor_parkVehicle_duplicate_id 5 (Vehicle.Car "KA07")
           (ParkingFloor.mk 1 [ParkingSlot.new 1 1 BIKE; ParkingSlot.new 1 1 CAR] 0)
           [] [] [] (ParkingSlot.new 1 1 BIKE) (ParkingSlot.new 1 1 CAR));
    [reflexivity|intros sl Hsl; by apply elem_of_nil in Hsl|reflexivity..].
Defined.

Lemma parkVehicle_slots_count now slotId vehicle ss ok ss' :
  ParkingFloor.parkVehicle_slots now slotId vehicle ss = Some (ok, ss') →
  occupied_count ss' = occupied_count ss + (if ok then 1 else 0).
Proof.
  revert vehicle ok ss'. induction ss as [|s rest IH]; intros vehicle ok ss'; simpl.
  { intros [= <- <-]. lia. }
  case_bool_decide.
  - destruct vehicle as [v|]; simpl; [|done].
    destruct (ParkingSlot.isCompatible _ s) eqn:Hc; simpl.
    + intros [= <- <-]. rewrite !occupied_count_cons.
      apply isCompatible_true in Hc as [Hfree _].
      unfold occ_bit. simpl. rewrite Hfree. simpl. lia.
    + destruct (ParkingFloor.parkVehicle_slots now slotId None rest)
        as [[r rest']|] eqn:E; simpl; [|done].
      intros [= <- <-]. rewrite !occupied_count_cons, (IH _ _ _ E). lia.
  - destruct (ParkingFloor.parkVehicle_slots now slotId vehicle rest)
      as [[r rest']|] eqn:E; simpl; [|done].
    intros [= <- <-]. rewrite !occupied_count_cons, (IH _ _ _ E). lia.
Qed.

(** X17: the operations of a floor keep its counter exact on any floor:
    when the counter is the number of occupied slots before [vacateSlot] or
    a [parkVehicle] that is defined, it is so afterwards, whatever the id
    and the vehicle and whether or not the operation finds a slot. *)
Theorem floor_counter_stays_exact (f : ParkingFloor.t) :
  counter_exact f →
  (∀ slotId, counter_exact (ParkingFloor.vacateSlot slotId f).2)
  ∧ ∀ now slotId vehicle ok f',
      ParkingFloor.parkVehicle now slotId vehicle f = Some (ok, f') →
      counter_exact f'.
Proof.
  unfold counter_exact. intros Hex. split.
  - intros slotId. unfold ParkingFloor.vacateSlot. rewrite vacateSlot_slots_find.
    destruct (list_find _ _) as [[i sl]|] eqn:E; [|done]. simpl.
    apply list_find_Some in E as (Hi & [_ Hocc] & _).
    rewrite (occupied_count_insert _ i sl) by done.
    unfold occ_bit. simpl. rewrite Hocc. simpl. lia.
  - intros now slotId vehicle ok f'. unfold ParkingFloor.parkVehicle.
    destruct (ParkingFloor.parkVehicle_slots _ _ _ _) as [[ok' ss]|] eqn:E;
      simpl; [|done].
    intros [= <- <-]. simpl. rewrite (parkVehicle_slots_count _ _ _ _ _ _ E).
    destruct ok'; lia.
Qed.

Lemma floor_counter_stays_exact_witness :
  ParkingFloor.vacateSlot 2 demo_floor
  = (Some (Vehicle.Bike "KA07"),
     ParkingFloor.mk 1
       [ParkingSlot.new 1 1 CAR;
        vacated (ParkingSlot.occupy 5 (Vehicle.Bike "KA07") (ParkingSlot.new 2 1 BIKE))]
       0)
  ∧ counter_exact (ParkingFloor.vacateSlot 2 demo_floor).2
  ∧ ParkingFloor.parkVehicle 9 1 (Some (Vehicle.Car "KA08")) demo_floor
    = Some (true, demo_floor_parked)
  ∧ ParkingFloor.occupiedSlots demo_floor_parked = 2
  ∧ counter_exact demo_floor_parked.
Proof.
  destruct (floor_counter_stays_exact demo_floor) as [Hvacate Hpark]; [reflexivity|].
  split; [reflexivity|]. split; [exact (Hvacate 2)|].
  split; [reflexivity|]. split; [reflexivity|].
  exact (Hpark 9 1 (Some (Vehicle.Car "KA08")) true demo_floor_parked eq_refl).
Defined.

(** ** Labels and rates of vehicles *)

(** X18: for vehicles of every class and type, the label decides the rate
    (two vehicles with the same label have the same rate), the rate lies
    between 5 and 20, and a handicapped vehicle whose base type is not CAR
    is labelled and charged as a handicapped bike. *)
Theorem label_decides_rate (v1 v2 : Vehicle.t) :
  Vehicle.getTypeString v1 = Vehicle.getTypeString v2 →
  Vehicle.getHourlyRate v1 = Vehicle.getHourlyRate v2
  ∧ (5 <= Vehicle.getHourlyRate v1 <= 20)%Q
  ∧ (Vehicle.class v1 = Vehicle.HandicappedVehicleCls → Vehicle.type v1 ≠ CAR →
     Vehicle.getTypeString v1 = "Handicapped Bike"
     ∧ Vehicle.getHourlyRate v1 = (BIKE_HOURLY_RATE * 0.5)%Q).
Proof.
  destruct v1 as [r1 t1 c1], v2 as [r2 t2 c2].
  unfold Vehicle.getTypeString, Vehicle.getHourlyRate. simpl. intros Hlabel.
  split; [|split].
  - destruct c1, c2; repeat case_bool_decide; done.
  - destruct c1; repeat case_bool_decide; split; done.
  - intros -> Hne. by rewrite !bool_decide_eq_false_2.
Qed.

Lemma label_decides_rate_witness :
  Vehicle.getHourlyRate (Vehicle.HandicappedVehicle "KA01" ELECTRIC)
  = Vehicle.getHourlyRate (Vehicle.HandicappedVehicle "KA02" BIKE).
Proof.
  destruct (label_decides_rate (Vehicle.HandicappedVehicle "KA01" ELECTRIC)
              (Vehicle.HandicappedVehicle "KA02" BIKE)) as [H _];
    [reflexivity|exact H].
Defined.

(** ** The loop of [main] *)

Lemma main_loop_run s rounds :
  main_loop s rounds = run s (commands_before_exit rounds).
Proof.
  revert s. induction rounds as [|r rest IH]; intros s; [done|]. simpl.
  repeat case_bool_decide; simpl; [..|done].
  - destruct (ParkingSystem.parkVehicle _ _ _ s) as [[s1 o]|]; simpl; [|done].
    by rewrite IH.
  - destruct (ParkingSystem.unparkVehicle _ _ s) as [[s1 o]|]; simpl; [|done].
    by rewrite IH.
  - by rewrite IH.
Qed.

Lemma commands_before_exit_app pre r post :
  choice r ≠ 1 → choice r ≠ 2 → choice r ≠ 3 →
  commands_before_exit (pre ++ r :: post) = commands_before_exit pre.
Proof.
  intros H1 H2 H3. induction pre as [|a pre IH]; simpl.
  - by rewrite !bool_decide_eq_false_2.
  - rewrite IH. done.
Qed.

Lemma length_issued_ids os : (length (issued_ids os) ≤ length os)%nat.
Proof.
  induction os as [|o os IH]; [done|]. rewrite issued_ids_cons.
  destruct o; simpl; lia.
Qed.

Lemma length_commands_before_exit rounds :
  (length (commands_before_exit rounds) ≤ length rounds)%nat.
Proof.
  induction rounds as [|r rest IH]; [done|]. simpl.
  repeat case_bool_decide; simpl; lia.
Qed.

(** X19: on input whose reads succeed and that has at most 2147482647
    rounds before the one that leaves the loop, [main] never runs into
    undefined behaviour: no null pointer is dereferenced, the vector of
    floors is indexed within its bounds, and the ticket counter stays within
    [int] (it is 1000 plus the number of tickets issued, and the ids are
    1001, 1002, ...).  [main] carries out the rounds in order (1 parks, 2
    unparks, 3 prints the status) on the facility of 3 floors with 10 car and
    5 bike slots, and a round with any other choice ends it: what follows
    that round has no effect. *)
Theorem main_stops_at_first_other_choice (pre post : list Round) (r : Round) :
  choice r ≠ 1 → choice r ≠ 2 → choice r ≠ 3 →
  Z.of_nat (length pre) ≤ 2147482647 →
  main (pre ++ r :: post) = main pre
  ∧ main pre = run (ParkingSystem.new 3 10 5) (commands_before_exit pre)
  ∧ ∃ s os,
      main pre = Some (s, os) ∧ reachable s
      ∧ issued_ids os = seqZ 1001 (Z.of_nat (length (issued_ids os)))
      ∧ ParkingSystem.ticketCounter s = 1000 + Z.of_nat (length (issued_ids os))
      ∧ ParkingSystem.ticketCounter s ≤ INT_MAX.
Proof.
  intros H1 H2 H3 Hlen. unfold main. rewrite !main_loop_run.
  rewrite (commands_before_exit_app pre r post H1 H2 H3).
  do 2 (split; [done|]).
  destruct (run_invariant _ (commands_before_exit pre) (new_invariant 3 10 5))
    as (s & os & Hrun & _).
  exists s, os. split; [done|].
  split; [by exists 3, 10, 5, (commands_before_exit pre), os|].
  pose proof (length_issued_ids os) as Hl1.
  pose proof (run_length _ _ _ _ Hrun) as Hl2.
  pose proof (length_commands_before_exit pre) as Hl3.
  destruct (run_ticket_ids_bounded _ _ _ _ Hrun) as [Hids Hctr];
    [simpl; lia|unfold INT_MAX; simpl; lia|].
  simpl in Hids, Hctr. do 2 (split; [done|]). unfold INT_MAX. lia.
Qed.

Lemma main_stops_at_first_other_choice_witness :
  main ([mkRound 1 1 "KA01" 0; mkRound 3 0 "" 0; mkRound 1 2 "KA02" 5;
         mkRound 2 0 "KA01" 9] ++ mkRound 4 0 "" 0 :: [mkRound 1 1 "KA03" 12])
  = main [mkRound 1 1 "KA01" 0; mkRound 3 0 "" 0; mkRound 1 2 "KA02" 5;
          mkRound 2 0 "KA01" 9]
  ∧ ∃ s os,
      main [mkRound 1 1 "KA01" 0; mkRound 3 0 "" 0; mkRound 1 2 "KA02" 5;
            mkRound 2 0 "KA01" 9] = Some (s, os)
      ∧ issued_ids os = seqZ 1001 (Z.of_nat (length (issued_ids os)))
      ∧ ParkingSystem.ticketCounter s = 1000 + Z.of_nat (length (issued_ids os)).
Proof.
  destruct (main_stops_at_first_other_choice
              [mkRound 1 1 "KA01" 0; mkRound 3 0 "" 0; mkRound 1 2 "KA02" 5;
               mkRound 2 0 "KA01" 9]
              [mkRound 1 1 "KA03" 12] (mkRound 4 0 "" 0))
    as (H & _ & s & os & Hmain & _ & Hids & Hctr & _); [discriminate..|].
  split; [exact H|]. exists s, os. split; [exact Hmain|]. split; [exact Hids|exact Hctr].
Defined.

(** ** Unparking, on any state and on the states the program reaches *)

(** X20: on any state, unparking a registration that has a ticket is
    undefined exactly when the floor number on the ticket is not the number
    of a floor (the vector of floors is indexed without a check); otherwise
    it charges, erases the ticket, and touches no floor but that one. *)
Theorem unpark_floor_index (s : ParkingSystem.t) (reg : string) (tk : Ticket.t)
    (now : time_point) :
  ParkingSystem.activeTickets s !! reg = Some tk →
  (ParkingSystem.unparkVehicle reg now s = None
   ↔ ¬ (1 ≤ Ticket.floor tk ≤ Z.of_nat (length (ParkingSystem.floors s))))
  ∧ ∀ s' o, ParkingSystem.unparkVehicle reg now s = Some (s', o) →
      o = ParkingCharge (ParkingSystem.charge_of now tk)
      ∧ ParkingSystem.activeTickets s' = delete reg (ParkingSystem.activeTickets s)
      ∧ ∀ k, Z.of_nat k + 1 ≠ Ticket.floor tk →
             ParkingSystem.floors s' !! k = ParkingSystem.floors s !! k.
Proof.
  intros Htk. unfold ParkingSystem.unparkVehicle, ParkingSystem.vacate_at.
  rewrite Htk. unfold Ticket.getFloor. split.
  - case_bool_decide as Hlow; [|split; [lia|done]].
    destruct (ParkingSystem.floors s !! Z.to_nat (Ticket.floor tk - 1)) as [f|] eqn:E;
      simpl.
    + apply lookup_lt_Some in E. split; [done|lia].
    + apply lookup_ge_None in E. split; [lia|done].
  - intros s' o. case_bool_decide as Hlow; [|done].
    destruct (ParkingSystem.floors s !! Z.to_nat (Ticket.floor tk - 1)) as [f|] eqn:E;
      simpl; [|done].
    intros [= <- <-]. simpl. do 2 (split; [done|]).
    intros k Hk. apply list_lookup_insert_ne. lia.
Qed.

Lemma unpark_floor_index_witness :
  ParkingSystem.unparkVehicle "KA01" 5
    (ParkingSystem.mk [] {["KA01" := demo_ticket]} 1001 0) = None
  ↔ ¬ (1 ≤ 1 ≤ Z.of_nat 0).
Proof.
  destruct (unpark_floor_index (ParkingSystem.mk [] {["KA01" := demo_ticket]} 1001 0)
              "KA01" demo_ticket 5) as [H _]; [reflexivity|exact H].
Defined.

(** X21: on any state, an operation leaves the ticket of every
    registration other than the one it is given as it is; a park does not
    change the revenue, an unpark does not change the ticket counter, and
    the status report changes nothing. *)
Theorem step_frame (s s' : ParkingSystem.t) (c : Command) (o : Output) (r : string) :
  step s c = Some (s', o) →
  command_reg c ≠ Some r →
  ParkingSystem.activeTickets s' !! r = ParkingSystem.activeTickets s !! r
  ∧ match c with
    | Park _ _ _ => ParkingSystem.totalRevenue s' = ParkingSystem.totalRevenue s
    | Unpark _ _ => ParkingSystem.ticketCounter s' = ParkingSystem.ticketCounter s
    | ViewStatus => s' = s
    end.
Proof.
  intros Hstep Hr. destruct c as [typeChoice reg now|reg now|]; simpl in *.
  - apply parkVehicle_effect in Hstep as [Hrev [[_ ->]|(_ & _ & tk & -> & _)]];
      [done|].
    split; [|done]. apply lookup_insert_ne. congruence.
  - apply unparkVehicle_effect in Hstep as [Hctr [(_ & _ & ->)|(tk & _ & _ & _ & ->)]];
      [done|].
    split; [|done]. apply lookup_delete_ne. congruence.
  - by injection Hstep as <- <-.
Qed.

Lemma step_frame_witness :
  ParkingSystem.activeTickets (final_state demo_parked [Unpark "KA01" 20]) !! "KA02"
  = ParkingSystem.activeTickets demo_parked !! "KA02".
Proof.
  destruct (step_frame demo_parked (final_state demo_parked [Unpark "KA01" 20])
              (Unpark "KA01" 20) (ParkingCharge 20) "KA02") as [H _];
    [reflexivity|discriminate|exact H].
Defined.

(** X22: in every state the program reaches, unparking a registration that
    has a ticket frees the slot the ticket names (it is free and empty
    afterwards), lowers the number of occupied slots by one, erases the
    ticket, and leaves every other slot as it is. *)
Theorem unpark_frees_the_slot (s : ParkingSystem.t) (reg : string) (tk : Ticket.t)
    (now : time_point) :
  reachable s →
  ParkingSystem.activeTickets s !! reg = Some tk →
  ∃ s' sl,
    ParkingSystem.unparkVehicle reg now s
    = Some (s', ParkingCharge (ParkingSystem.charge_of now tk))
    ∧ slot_of s (Ticket.floor tk) (Ticket.slotId tk) sl
    ∧ slot_of s' (Ticket.floor tk) (Ticket.slotId tk) (vacated sl)
    ∧ total_occupied s' = total_occupied s - 1
    ∧ ParkingSystem.activeTickets s' = delete reg (ParkingSystem.activeTickets s)
    ∧ ∀ flr slotId sl',
        ¬ (flr = Ticket.floor tk ∧ slotId = Ticket.slotId tk) →
        (slot_of s' flr slotId sl' ↔ slot_of s flr slotId sl').
Proof.
  intros Hinv%reachable_invariant Htk.
  destruct (unparkVehicle_cases reg now s tk Hinv Htk)
    as (k & j & f & sl & v & Hf & Hs & Hk & Hj & Hcur & _ & Hrun).
  pose proof (unpark_state_invariant reg now s tk k j f sl Hinv Htk Hf Hs Hk Hj) as Hinv'.
  assert (Hat : slot_at (ParkingSystem.floors s) k j = Some sl)
    by (apply slot_at_floor; eauto).
  destruct (inv_slot s Hinv k j sl Hat) as (_ & _ & Hcons).
  unfold slot_consistent in Hcons. rewrite Hcur in Hcons. destruct Hcons as [Hocc _].
  pose proof (unpark_state_slot_at reg now s tk k f j sl) as Hnew.
  exists (unpark_state reg now k j f sl tk s), sl.
  split; [done|]. split; [rewrite Hf, Hs; by apply slot_at_slot_of|]. split.
  { rewrite Hf, Hs. apply slot_at_slot_of; [done|].
    rewrite Hnew by done. by rewrite decide_True. }
  split.
  { unfold total_occupied, unpark_state. simpl.
    rewrite (sumZ_fmap_insert _ _ k f) by done. simpl.
    rewrite (occupied_count_insert _ j sl) by done.
    unfold occ_bit. simpl. rewrite Hocc. simpl. lia. }
  split; [done|].
  intros flr slotId sl' Hne. split.
  - intros (k' & j' & -> & -> & Hat')%slot_of_slot_at; [|done].
    rewrite Hnew in Hat' by done. rewrite decide_False in Hat' by (intros [-> ->]; lia).
    by apply slot_at_slot_of.
  - intros (k' & j' & -> & -> & Hat')%slot_of_slot_at; [|done].
    apply slot_at_slot_of; [done|].
    rewrite Hnew by done. by rewrite decide_False by (intros [-> ->]; lia).
Qed.

Lemma unpark_frees_the_slot_witness :
  ∃ s' sl,
    ParkingSystem.unparkVehicle "KA01" 20 demo_parked
    = Some (s', ParkingCharge (ParkingSystem.charge_of 20 demo_ticket))
    ∧ slot_of demo_parked 1 1 sl
    ∧ slot_of s' 1 1 (vacated sl)
    ∧ total_occupied s' = total_occupied demo_parked - 1
    ∧ ParkingSystem.activeTickets s' = delete "KA01" (ParkingSystem.activeTickets demo_parked)
    ∧ ∀ flr slotId sl',
        ¬ (flr = 1 ∧ slotId = 1) →
        (slot_of s' flr slotId sl' ↔ slot_of demo_parked flr slotId sl').
Proof.
  apply (unpark_frees_the_slot demo_parked "KA01" demo_ticket 20);
    [exact demo_parked_reachable|reflexivity].
Defined.
